(** * retry-lit: retry with exponential backoff

    A shallow embedding of [src/generate-timeouts] and [src/index] (the
    TypeScript sources, and the older JavaScript form of the same module
    where the two differ) together with the properties the specification
    states about them.

    Conventions of the embedding.
    - [generateTimeouts] is embedded twice.  [Double.generateTimeouts] is
      the function on JavaScript numbers: IEEE 754 binary64 values, every
      product and power rounded to the nearest of them, with [NaN] and the
      two infinities.  [generateTimeouts] is the same expression over exact
      rationals ([Q], with [Infinity] as a separate constructor): the two
      agree whenever no operation has to round
      ([generateTimeouts_exact]), which covers whole-number delays and
      factors below [2^53] and so the defaults of [retry]; the engine and
      the shape of the schedule are stated over it.  The sign of zero is not
      tracked.
    - [retries] and attempt numbers are natural numbers; [retriesLeft], being
      the result of a subtraction, is an integer ([Z]).
    - An error object is a record that carries the address it was allocated
      at, so that "the same object" ([toBe]) and "an object that looks the
      same" ([toEqual]) stay apart.
    - The caller's operation, the failure observer and the wall clock are the
      environment: functions of the attempt number, since the engine calls
      each of them at most once per attempt.  Every awaited call settles:
      an operation whose promise stays pending for ever is not modelled. *)

From Stdlib Require Import ZArith QArith Qround Qminmax Qpower Qabs Qreduction.
From Stdlib Require Import Lia Lqa.
From stdpp Require Import base option list strings gmap.

Local Open Scope Q_scope.

(** ** JavaScript numbers and the [Math] functions the code calls *)

Module Num.

(** A number that may be [Infinity] (only [max]/[maxTimeout] can be). *)
Inductive JsNumber : Type :=
| Fin (q : Q)
| Infinity.

(** [Math.max(a, b)] on finite numbers. *)
Definition Math_max (a b : Q) : Q := Qmax a b.

(** [Math.min(a, b)] where [b] may be [Infinity]. *)
Definition Math_min (a : Q) (b : JsNumber) : Q :=
  match b with
  | Fin m => Qmin a m
  | Infinity => a
  end.

(** [Math.round(x)]: the nearest integer, halves going up. *)
Definition Math_round (x : Q) : Q := inject_Z (Qfloor (x + (1 # 2))).

(** [Math.pow(b, i)] / [b ** i] for a loop counter [i]. *)
Definition Math_pow (b : Q) (i : nat) : Q := b ^ Z.of_nat i.

(** [a > b] where [b] may be [Infinity]. *)
Definition gtb (a : Q) (b : JsNumber) : bool :=
  match b with
  | Fin m => negb (Qle_bool a m)
  | Infinity => false
  end.

(** [a <= b] as a proposition, [b] possibly [Infinity]. *)
Definition le (a : Q) (b : JsNumber) : Prop :=
  match b with
  | Fin m => a <= m
  | Infinity => True
  end.

End Num.
Import Num.

(** ** [generateTimeouts] (src/generate-timeouts) over exact numbers *)

(** The body of the [for] loop: [fuel] iterations remain, [i] is the loop
    counter and [timeouts] the array built so far ([push] appends).  The
    arithmetic is exact; [Double.generateTimeouts_loop] below is the loop on
    binary64 numbers. *)
Fixpoint generateTimeouts_loop (fuel i : nat) (min : Q) (max : JsNumber)
    (factor : Q) (timeouts : list Q) : list Q :=
  match fuel with
  | O => timeouts
  | S fuel' =>
      let timeout :=
        Math_min (Math_round (Math_max min 1 * Math_pow factor i)) max in
      generateTimeouts_loop fuel' (S i) min max factor (timeouts ++ [timeout])
  end.

Definition generateTimeouts (retries : nat) (min : Q) (max : JsNumber)
    (factor : Q) : list Q :=
  generateTimeouts_loop retries 0 min max factor [].

(** The delay the loop body computes for counter [i]. *)
Definition loop_delay (min : Q) (max : JsNumber) (factor : Q) (i : nat) : Q :=
  Math_min (Math_round (Math_max min 1 * Math_pow factor i)) max.

(** The parameter defaults: [generateTimeouts()]. *)
Definition generateTimeouts_default : list Q :=
  generateTimeouts 5 10 Infinity 6.

(** The delay of retry [i] as the specification words it:
    [min(round(effectiveMin * factor^i), max)] with
    [effectiveMin = max(min, 1)]. *)
Definition scheduled_delay (min : Q) (max : JsNumber) (factor : Q) (i : nat) : Q :=
  let effectiveMin := Qmax min 1 in
  let rounded := inject_Z (Qfloor (effectiveMin * factor ^ Z.of_nat i + (1 # 2))) in
  match max with
  | Fin m => Qmin rounded m
  | Infinity => rounded
  end.




(** ** [generateTimeouts] on IEEE 754 binary64 numbers *)

Module Double.

(** A JavaScript number: [NaN], an infinity, or a finite number given by
    its value.  What an operation returns is a binary64 number
    ([representable]); an argument may be any rational, and is then rounded
    by the first product or power it enters. *)
Inductive t : Type :=
| NaN
| NegInfinity
| Finite (q : Q)
| PosInfinity.

(** The finite binary64 numbers: [m * 2^e] with a significand of at most 53
    bits and an exponent between those of the least subnormal and of the
    greatest finite number. *)
Definition representable (q : Q) : Prop :=
  exists m e : Z,
    (Z.abs m < 2 ^ 53)%Z /\ (-1074 <= e <= 971)%Z /\ q == inject_Z m * 2 ^ e.

(** [floor (log2 q)] for a positive [q]. *)
Definition ilog2 (q : Q) : Z :=
  let l := (Z.log2 (Qnum q) - Z.log2 (Zpos (Qden q)))%Z in
  if Qle_bool (2 ^ l) q then l else (l - 1)%Z.

(** The integer nearest to [q], the even one of the two when [q] lies half
    way. *)
Definition nearest_even (q : Q) : Z :=
  let f := Qfloor q in
  match Qcompare (q - inject_Z f) (1 # 2) with
  | Lt => f
  | Gt => (f + 1)%Z
  | Eq => if Z.even f then f else (f + 1)%Z
  end.

(** The binary64 number an exact result is rounded to (roundTiesToEven):
    the significand is cut to 53 bits, or to the bits above [2^-1074] for a
    subnormal, and a result of magnitude [2^1024] or more is an infinity. *)
Definition roundTiesToEven (q : Q) : t :=
  if Qeq_bool q 0 then Finite 0
  else
    let e := Z.max (ilog2 (Qabs q) - 52) (-1074) in
    let r := Qred (inject_Z (nearest_even (q / 2 ^ e)) * 2 ^ e) in
    if Qle_bool (2 ^ 1024) (Qabs r)
    then (if Qle_bool 0 q then PosInfinity else NegInfinity)
    else Finite r.

Definition sgn (a : t) : Z :=
  match a with
  | NaN => 0
  | NegInfinity => -1
  | Finite q => Z.sgn (Qnum q)
  | PosInfinity => 1
  end.

(** [a * b] *)
Definition mul (a b : t) : t :=
  match a, b with
  | NaN, _ | _, NaN => NaN
  | Finite x, Finite y => roundTiesToEven (x * y)
  | _, _ =>
      match (sgn a * sgn b)%Z with
      | Z0 => NaN
      | Zpos _ => PosInfinity
      | Zneg _ => NegInfinity
      end
  end.

(** [b ** i] / [Math.pow(b, i)] for a loop counter [i].  ECMAScript leaves
    the last bit of a power to the engine ("implementation-approximated");
    the embedding takes the correctly rounded power, which is the power
    itself whenever that is a binary64 number. *)
Definition pow (b : t) (i : nat) : t :=
  match i with
  | O => Finite 1
  | S _ =>
      match b with
      | NaN => NaN
      | NegInfinity => if Nat.odd i then NegInfinity else PosInfinity
      | Finite q => roundTiesToEven (q ^ Z.of_nat i)
      | PosInfinity => PosInfinity
      end
  end.

(** [Math.max(a, b)] *)
Definition Math_max (a b : t) : t :=
  match a, b with
  | NaN, _ | _, NaN => NaN
  | PosInfinity, _ | _, PosInfinity => PosInfinity
  | NegInfinity, c | c, NegInfinity => c
  | Finite x, Finite y => Finite (Qmax x y)
  end.

(** [Math.min(a, b)] *)
Definition Math_min (a b : t) : t :=
  match a, b with
  | NaN, _ | _, NaN => NaN
  | NegInfinity, _ | _, NegInfinity => NegInfinity
  | PosInfinity, c | c, PosInfinity => c
  | Finite x, Finite y => Finite (Qmin x y)
  end.

(** [Math.round(a)]: the nearest integer, halves going up; exact on every
    binary64 number. *)
Definition Math_round (a : t) : t :=
  match a with
  | Finite q => Finite (inject_Z (Qfloor (q + (1 # 2))))
  | _ => a
  end.

(** The delay the loop body computes for counter [i]. *)
Definition loop_delay (min max factor : t) (i : nat) : t :=
  Math_min (Math_round (mul (Math_max min (Finite 1)) (pow factor i))) max.

Fixpoint generateTimeouts_loop (fuel i : nat) (min max factor : t)
    (timeouts : list t) : list t :=
  match fuel with
  | O => timeouts
  | S fuel' =>
      let timeout :=
        Math_min (Math_round (mul (Math_max min (Finite 1)) (pow factor i))) max in
      generateTimeouts_loop fuel' (S i) min max factor (timeouts ++ [timeout])
  end.

Definition generateTimeouts (retries : nat) (min max factor : t) : list t :=
  generateTimeouts_loop retries 0 min max factor [].

(** A bound that may be [Infinity], as a JavaScript number. *)
Definition ofNum (n : JsNumber) : t :=
  match n with
  | Fin q => Finite q
  | Infinity => PosInfinity
  end.

End Double.


(** The double nearest to the literal [1.15]. *)
Definition literal_1_15 : Q := 5179139571476070 # 4503599627370496.

(** ** Values and error objects *)

(** Where an object was allocated.  The engine's own [new Error(...)] calls
    yield objects that no caller code holds; objects made by the caller
    (the operation, the observer) are told apart by an address. *)
Inductive Loc : Type :=
| ByCaller (addr : nat)
| ByEngine.

(** The classes [instanceof] is asked about.  A subclass of [TypeError]
    counts as [TypeErrorClass], any other subclass of [Error] as
    [OtherErrorClass]. *)
Inductive ErrorClass : Type :=
| BaseErrorClass
| TypeErrorClass
| AbortErrorClass
| OtherErrorClass.

#[local] Set Warnings "-register-all".
Inductive JsError : Type := MkError {
  loc : Loc;
  class : ErrorClass;
  name : string;
  message : string;
  originalError : option JsError
}.

(** Any value that can be thrown, returned, or used to settle a promise.
    A value that is not an [Error] is known by its string conversion, when
    it has one.  Converting a [Symbol] to a string throws a [TypeError], and
    so does converting an object without a usable [toString] (one made by
    [Object.create(null)], or one whose [toString] throws): [JOpaque]. *)
Inductive JsValue : Type :=
| JNull
| JUndefined
| JOther (repr : string)
| JSymbol (description : string)
| JOpaque
| JError (e : JsError).

(** [`${v}`]: the string conversion of the template literal; [None] when
    the conversion throws. *)
Definition toStr (v : JsValue) : option string :=
  match v with
  | JNull => Some "null"
  | JUndefined => Some "undefined"
  | JOther repr => Some repr
  | JSymbol _ => None
  | JOpaque => None
  | JError e => Some (name e +:+ ": " +:+ message e)
  end.

Definition instanceof (e : JsError) (c : ErrorClass) : bool :=
  match c, class e with
  | BaseErrorClass, _ => true
  | TypeErrorClass, TypeErrorClass => true
  | AbortErrorClass, AbortErrorClass => true
  | OtherErrorClass, OtherErrorClass => true
  | _, _ => false
  end.

(** [new Error(message)] *)
Definition newError (l : Loc) (msg : string) : JsError :=
  {| loc := l; class := BaseErrorClass; name := "Error"; message := msg;
     originalError := None |}.

(** [new TypeError(message)] *)
Definition newTypeError (l : Loc) (msg : string) : JsError :=
  {| loc := l; class := TypeErrorClass; name := "TypeError"; message := msg;
     originalError := None |}.

(** [new AbortError(message)]: the argument is a string or an [Error]; [addr]
    is where the wrapper is allocated and [addr'] where the constructor's own
    [new Error(message)] is. *)
Definition AbortError (addr addr' : nat) (arg : string + JsError) : JsError :=
  match arg with
  | inr e =>
      {| loc := ByCaller addr; class := AbortErrorClass; name := "AbortError";
         message := message e; originalError := Some e |}
  | inl msg =>
      {| loc := ByCaller addr; class := AbortErrorClass; name := "AbortError";
         message := msg; originalError := Some (newError (ByCaller addr') msg) |}
  end.

(** [class AttemptError] with the two counters the engine fills in. *)
Module AttemptError.
Record t : Type := make {
  name : string;
  message : string;
  attemptNumber : nat;
  retriesLeft : Z
}.

(** [new AttemptError(message)]: both counters start at 0. *)
Definition new (msg : string) : t :=
  {| name := "AttemptError"; message := msg; attemptNumber := 0;
     retriesLeft := 0 |}.

(** [attemptErr.attemptNumber = n] *)
Definition set_attemptNumber (a : t) (n : nat) : t :=
  {| name := name a; message := message a; attemptNumber := n;
     retriesLeft := retriesLeft a |}.

(** [attemptErr.retriesLeft = k] *)
Definition set_retriesLeft (a : t) (k : Z) : t :=
  {| name := name a; message := message a; attemptNumber := attemptNumber a;
     retriesLeft := k |}.
End AttemptError.

(** [decorateErrorWithCounts] of the JavaScript form of the module: the
    failure itself is given the two counters and handed to the observer. *)
Module Legacy.
Record Decorated : Type := {
  error : JsError;
  attemptNumber : nat;
  retriesLeft : Z
}.

Definition decorateErrorWithCounts (err : JsError) (attemptNumber : nat)
    (retries : nat) : Decorated :=
  let retriesLeft := (Z.of_nat retries - (Z.of_nat attemptNumber - 1))%Z in
  {| error := err; attemptNumber := attemptNumber;
     retriesLeft := retriesLeft |}.
End Legacy.

(** ** Failure classification *)

Definition networkErrorMsgs : list string :=
  [ "Failed to fetch";
    "NetworkError when attempting to fetch resource.";
    "The Internet connection appears to be offline.";
    "Network request failed" ].

(** [networkErrorMsgs.includes(errorMessage)] *)
Definition isNetworkError (errorMessage : string) : bool :=
  existsb (String.eqb errorMessage) networkErrorMsgs.

(** ** The environment of one call *)

(** How an awaited call ends. *)
Inductive Outcome : Type :=
| Fulfils (v : JsValue)
| Raises (v : JsValue).

(** [input]: the operation, by attempt number. *)
Definition RetryInput : Type := nat -> Outcome.

(** [onFailedAttempt]: [None] when the observer completes, [Some v] when it
    throws (or its promise rejects with) [v]. *)
Definition Observer : Type := AttemptError.t -> option JsValue.

(** [new Date().getTime()]: reading [0] is taken when the first attempt
    starts, reading [n] when the failure of attempt [n] reaches the retry
    decision. *)
Definition Clock : Type := nat -> Z.

(** The caller's [options]: every field may be left out. *)
Record RetryOptions : Type := {
  retries : option nat;
  factor : option Q;
  minTimeout : option Q;
  maxTimeout : option JsNumber;
  onFailedAttempt : option Observer
}.

Definition noOptions : RetryOptions :=
  {| retries := None; factor := None; minTimeout := None; maxTimeout := None;
     onFailedAttempt := None |}.

(** [opts]: the defaults with the caller's options spread over them. *)
Record Opts : Type := {
  opts_onFailedAttempt : Observer;
  opts_retries : nat;
  opts_factor : Q;
  opts_minTimeout : Q;
  opts_maxTimeout : JsNumber
}.

Definition mergeOptions (options : RetryOptions) : Opts :=
  {| opts_onFailedAttempt := default (fun _ => None) (onFailedAttempt options);
     opts_retries := default 3%nat (retries options);
     opts_factor := default 2 (factor options);
     opts_minTimeout := default 1000 (minTimeout options);
     opts_maxTimeout := default Infinity (maxTimeout options) |}.

(** ** What a run leaves behind *)

Inductive Event : Type :=
| Invoked (attemptNumber : nat)
| Observed (attemptErr : AttemptError.t)
| TimerSet (id : nat) (timeout : Q)
| TimerCleared (id : nat).

Inductive Settlement : Type :=
| Resolved (v : JsValue)
| Rejected (v : JsValue).

(** The mutable variables of the promise executor. *)
Record State : Type := {
  timeouts : list Q;
  errors : list JsError;
  operationStart : Z;
  attempts : nat;
  timeoutId : option nat
}.

Definition set_timeouts (st : State) (ts : list Q) : State :=
  {| timeouts := ts; errors := errors st; operationStart := operationStart st;
     attempts := attempts st; timeoutId := timeoutId st |}.

Definition set_errors (st : State) (es : list JsError) : State :=
  {| timeouts := timeouts st; errors := es; operationStart := operationStart st;
     attempts := attempts st; timeoutId := timeoutId st |}.

Definition set_operationStart (st : State) (t : Z) : State :=
  {| timeouts := timeouts st; errors := errors st; operationStart := t;
     attempts := attempts st; timeoutId := timeoutId st |}.

Definition set_attempts (st : State) (n : nat) : State :=
  {| timeouts := timeouts st; errors := errors st;
     operationStart := operationStart st; attempts := n;
     timeoutId := timeoutId st |}.

Definition set_timeoutId (st : State) (id : option nat) : State :=
  {| timeouts := timeouts st; errors := errors st;
     operationStart := operationStart st; attempts := attempts st;
     timeoutId := id |}.

(** What one call of the attempt callback ends in: the promise is settled, or
    a timer is armed whose callback starts the next attempt, or the callback
    itself throws: then neither [resolve] nor [reject] is called, nothing is
    scheduled, and the promise stays pending. *)
Inductive Step : Type :=
| Settle (s : Settlement)
| Scheduled
| Unsettled.

(** What the session did, and the executor's variables when it stopped.
    [settled = None] stands for a promise that is never settled. *)
Record Run : Type := {
  settled : option Settlement;
  final : State;
  trace : list Event
}.

(** ** [mainError]: the representative failure *)

(** The names every object literal inherits from [Object.prototype]:
    [counts = {}] answers a read of any of them with a function (or, for
    [__proto__], with the prototype object), not with [undefined]. *)
Definition objectPrototypeKeys : list string :=
  [ "constructor"; "__defineGetter__"; "__defineSetter__"; "hasOwnProperty";
    "__lookupGetter__"; "__lookupSetter__"; "isPrototypeOf";
    "propertyIsEnumerable"; "toString"; "valueOf"; "__proto__";
    "toLocaleString" ].

(** What a property of [counts] can hold, or a read of it can return. *)
Inductive Cell : Type :=
| Num (n : nat)   (* a number *)
| Text            (* a string that is not a numeral *)
| Member.         (* a function or object found on the prototype *)

(** [counts[message]]: own properties first, then the prototype chain;
    [None] is [undefined]. *)
Definition counts_get (counts : gmap string Cell) (message : string) : option Cell :=
  match counts !! message with
  | Some c => Some c
  | None => if bool_decide (message ∈ objectPrototypeKeys) then Some Member else None
  end.

(** [(v || 0) + 1]: [undefined] and [0] are falsy; a string, a function or an
    object is truthy and [+] then concatenates its text with "1". *)
Definition or0_plus1 (v : option Cell) : Cell :=
  match v with
  | None => Num 1
  | Some (Num n) => Num (n + 1)
  | Some Text => Text
  | Some Member => Text
  end.

(** [counts[message] = count]: the [__proto__] setter ignores a value that is
    neither an object nor [null]; any other name becomes an own property. *)
Definition counts_set (counts : gmap string Cell) (message : string) (count : Cell)
    : gmap string Cell :=
  if bool_decide (message = "__proto__") then counts else <[message := count]> counts.

(** [count >= mainErrorCount]: a string that is no numeral converts to [NaN],
    and every comparison with [NaN] is false. *)
Definition count_ge (count : Cell) (mainErrorCount : nat) : bool :=
  match count with
  | Num n => bool_decide (mainErrorCount ≤ n)%nat
  | Text | Member => false
  end.

Definition count_value (count : Cell) : nat :=
  match count with
  | Num n => n
  | Text | Member => 0%nat
  end.

(** The three locals of [mainError]. *)
Record MainErrorVars : Type := {
  counts : gmap string Cell;
  mainError_ : option JsError;
  mainErrorCount : nat
}.

(** One turn of the [for] loop. *)
Definition mainError_body (vars : MainErrorVars) (error : JsError) : MainErrorVars :=
  let message := message error in
  let count := or0_plus1 (counts_get (counts vars) message) in
  let counts' := counts_set (counts vars) message count in
  if count_ge count (mainErrorCount vars) then
    {| counts := counts'; mainError_ := Some error;
       mainErrorCount := count_value count |}
  else
    {| counts := counts'; mainError_ := mainError_ vars;
       mainErrorCount := mainErrorCount vars |}.

(** [mainError()] over the accumulator; [None] is [null]. *)
Definition mainError (errors : list JsError) : option JsError :=
  if bool_decide (length errors = 0%nat) then None
  else
    mainError_ (fold_left mainError_body errors
                  {| counts := ∅; mainError_ := None; mainErrorCount := 0 |}).

(** ** The promise executor of [retry] *)

(** [currentTime - operationStart >= maxRetryTime]; [maxRetryTime] is
    [undefined] when the schedule is empty, which converts to [NaN]. *)
Definition budgetExpired (currentTime operationStart : Z) (maxRetryTime : option Q)
    : bool :=
  match maxRetryTime with
  | Some m => Qle_bool m (inject_Z (currentTime - operationStart))
  | None => false
  end.

Definition timeoutMarker : JsError :=
  newError ByEngine "Maximum retry timeout reached".

Definition dquote : string := String (Ascii.ascii_of_nat 34) EmptyString.

(** The message of the [TypeError] for a thrown non-error whose string
    conversion is [repr]. *)
Definition nonErrorMessage (repr : string) : string :=
  "Non-error was thrown: " +:+ dquote +:+ repr +:+ dquote
    +:+ ". You should only throw errors.".

Definition rejectionOf (e : option JsError) (absent : JsValue) : JsValue :=
  match e with
  | Some e => JError e
  | None => absent
  end.

Module Executor.
Section Closure.

Variable input : RetryInput.
Variable opts : Opts.
Variable clock : Clock.
(** [let maxRetryTime = timeouts[timeouts.length - 1]], never reassigned. *)
Variable maxRetryTime : option Q.

(** [retry(err)]: [err] is an error object here, so the early return on a
    falsy [err] is never taken.  The timer handle is numbered by the
    attempt that armed it. *)
Definition retry (st : State) (err : JsError) : bool * State * list Event :=
  let currentTime := clock (attempts st) in
  if budgetExpired currentTime (operationStart st) maxRetryTime then
    (false, set_errors st (timeoutMarker :: (errors st ++ [err])), [])
  else
    let st := set_errors st (errors st ++ [err]) in
    match timeouts st with
    | [] => (false, st, [])
    | timeout :: rest =>
        let id := attempts st in
        (true, set_timeoutId (set_timeouts st rest) (Some id),
         [TimerSet id timeout])
    end.

(** [stop()] *)
Definition stop (st : State) : State * list Event :=
  (set_timeouts st [],
   match timeoutId st with
   | Some id => [TimerCleared id]
   | None => []
   end).

(** The callback handed to [attempt]: [async attemptNumber => ...]. *)
Definition fn (st : State) (attemptNumber : nat) : Step * State * list Event :=
  match input attemptNumber with
  | Fulfils v => (Settle (Resolved v), st, [Invoked attemptNumber])
  | Raises (JError err) =>
      if instanceof err AbortErrorClass then
        let '(st, evs) := stop st in
        (Settle (Rejected (rejectionOf (originalError err) JUndefined)), st,
         Invoked attemptNumber :: evs)
      else if instanceof err TypeErrorClass && negb (isNetworkError (message err)) then
        let '(st, evs) := stop st in
        (Settle (Rejected (JError err)), st, Invoked attemptNumber :: evs)
      else
        let retriesLeft :=
          (Z.of_nat (opts_retries opts) - (Z.of_nat attemptNumber - 1))%Z in
        let attemptErr := AttemptError.new (message err) in
        let attemptErr := AttemptError.set_attemptNumber attemptErr attemptNumber in
        let attemptErr := AttemptError.set_retriesLeft attemptErr retriesLeft in
        match opts_onFailedAttempt opts attemptErr with
        | Some error =>
            (Settle (Rejected error), st,
             [Invoked attemptNumber; Observed attemptErr])
        | None =>
            let '(again, st, evs) := retry st err in
            if again then
              (Scheduled, st, Invoked attemptNumber :: Observed attemptErr :: evs)
            else
              (Settle (Rejected (rejectionOf (mainError (errors st)) JNull)), st,
               Invoked attemptNumber :: Observed attemptErr :: evs)
        end
  | Raises v =>
      (* the template literal is evaluated before [reject] is called *)
      match toStr v with
      | Some repr =>
          (Settle (Rejected (JError (newTypeError ByEngine (nonErrorMessage repr)))),
           st, [Invoked attemptNumber])
      | None => (Unsettled, st, [Invoked attemptNumber])
      end
  end.

(** The session from a call of [fn(attempts)] on: when a timer was armed,
    its callback does [attempts++; fn(attempts)].  [fuel] bounds the number
    of calls of [fn]. *)
Fixpoint run (fuel : nat) (st : State) : Run :=
  match fuel with
  | O => {| settled := None; final := st; trace := [] |}
  | S fuel' =>
      let '(step, st, evs) := fn st (attempts st) in
      match step with
      | Settle s => {| settled := Some s; final := st; trace := evs |}
      | Scheduled =>
          let r := run fuel' (set_attempts st (S (attempts st))) in
          {| settled := settled r; final := final r; trace := evs ++ trace r |}
      | Unsettled => {| settled := None; final := st; trace := evs |}
      end
  end.

(** [attempt(_fn)] *)
Definition attempt (fuel : nat) (st : State) : Run :=
  run fuel (set_operationStart st (clock 0%nat)).

End Closure.
End Executor.

(** How a piece of code completes: normally, or by throwing. *)
Inductive Completion (A : Type) : Type :=
| Normal (a : A)
| Throw (v : JsValue).
Arguments Normal {A} a.
Arguments Throw {A} v.

(** The function passed to [new Promise]. *)
Definition executor (input : RetryInput) (options : RetryOptions) (clock : Clock)
    : Completion Run :=
  let opts := mergeOptions options in
  if gtb (opts_minTimeout opts) (opts_maxTimeout opts) then
    Throw (JError (newError ByEngine "minTimeout must be less than maxTimeout"))
  else
    let timeouts :=
      generateTimeouts (opts_retries opts) (opts_minTimeout opts)
        (opts_maxTimeout opts) (opts_factor opts) in
    let st :=
      {| timeouts := timeouts; errors := []; operationStart := 0;
         attempts := 1; timeoutId := None |} in
    let maxRetryTime := last timeouts in
    Normal (Executor.attempt input opts clock maxRetryTime
              (S (length timeouts)) st).

(** The promise [retry] returns, with what the session did on the way. *)
Record Promise : Type := {
  state : option Settlement;
  events : list Event;
  vars : option State
}.

(** [new Promise(executor)]: the executor runs at once; if it throws, the
    constructor catches the value and rejects the promise with it. *)
Definition newPromise (body : Completion Run) : Promise :=
  match body with
  | Normal r => {| state := settled r; events := trace r; vars := Some (final r) |}
  | Throw v => {| state := Some (Rejected v); events := []; vars := None |}
  end.

(** [retry(input, options)] *)
Definition retry (input : RetryInput) (options : RetryOptions) (clock : Clock)
    : Completion Promise :=
  Normal (newPromise (executor input options clock)).


(** ** Vocabulary of the properties *)

(** The attempt numbers the operation was called with, in order. *)
Definition invocations (tr : list Event) : list nat :=
  omap (fun ev => match ev with Invoked n => Some n | _ => None end) tr.

(** The values the observer was called with, in order. *)
Definition observations (tr : list Event) : list AttemptError.t :=
  omap (fun ev => match ev with Observed a => Some a | _ => None end) tr.

(** The delays of the timers that were armed, in order. *)
Definition timersSet (tr : list Event) : list Q :=
  omap (fun ev => match ev with TimerSet _ t => Some t | _ => None end) tr.

(** The value the observer is to receive for the failure [err] of attempt
    [attemptNumber], as the specification describes it. *)
Definition attemptErrorFor (retries : nat) (err : JsError) (attemptNumber : nat)
    : AttemptError.t :=
  AttemptError.make "AttemptError" (message err) attemptNumber
    (Z.of_nat retries - (Z.of_nat attemptNumber - 1)).

(** The classifier as the specification words it, rules 1 to 4. *)
Inductive Verdict : Type :=
| StopWith (v : JsValue)
| Retryable.

Definition knownTransient (msg : string) : Prop :=
  msg = "Failed to fetch"
  \/ msg = "NetworkError when attempting to fetch resource."
  \/ msg = "The Internet connection appears to be offline."
  \/ msg = "Network request failed".

#[global] Instance knownTransient_dec (msg : string) : Decision (knownTransient msg).
Proof. unfold knownTransient. apply _. Defined.

Definition classify (failure : JsError) : Verdict :=
  match class failure with
  | AbortErrorClass => StopWith (rejectionOf (originalError failure) JUndefined)
  | TypeErrorClass =>
      if decide (knownTransient (message failure)) then Retryable
      else StopWith (JError failure)
  | BaseErrorClass | OtherErrorClass => Retryable
  end.

(** A message that names a member of [Object.prototype]. *)
Definition inherited (msg : string) : Prop := msg ∈ objectPrototypeKeys.

(** How many failures of [l] carry the message [msg]. *)
Definition tally (msg : string) (l : list JsError) : nat :=
  length (filter (fun e => message e = msg) l).

(** The count the failure at index [i] has when the scan reaches it: the
    failures up to and including [i] that share its message. *)
Definition runningCount (l : list JsError) (i : nat) : nat :=
  match l !! i with
  | Some e => tally (message e) (take (S i) l)
  | None => 0
  end.

(** [e], found at index [i], is the representative of [l]: no counted failure
    before it has a higher running count, and every counted failure after it
    has a lower one (so a later failure with a tied count would have
    replaced it).  A failure is counted when its message is not [inherited]. *)
Definition representative (l : list JsError) (i : nat) (e : JsError) : Prop :=
  l !! i = Some e
  /\ ~ inherited (message e)
  /\ (forall j e', (j < i)%nat -> l !! j = Some e' -> ~ inherited (message e') ->
        (runningCount l j <= runningCount l i)%nat)
  /\ (forall k e', (i < k)%nat -> l !! k = Some e' -> ~ inherited (message e') ->
        (runningCount l k < runningCount l i)%nat).

(** The loop invariant of [mainError]: what [vars] hold once the failures
    [pre] have been scanned. *)
Definition scanned_best (pre : list JsError) (vars : MainErrorVars) : Prop :=
  match mainError_ vars with
  | None =>
      mainErrorCount vars = 0%nat /\ Forall (fun e => inherited (message e)) pre
  | Some e =>
      exists i, representative pre i e /\ mainErrorCount vars = runningCount pre i
  end.

Record scanned (pre : list JsError) (vars : MainErrorVars) : Prop := {
  scanned_counted : forall m, ~ inherited m ->
    counts vars !! m
    = if decide (tally m pre = 0%nat) then None else Some (Num (tally m pre));
  scanned_inherited : forall m, inherited m ->
    counts vars !! m = None \/ counts vars !! m = Some Text;
  scanned_representative : scanned_best pre vars
}.

(** ** The state machine of the specification (section 4.3)

    One call of the attempt callback, as a transition: what the operation
    did, how the failure was classified, what the observer did, and which of
    the three ways the retry decision went. *)
Section Transitions.

Variable input : RetryInput.
Variable opts : Opts.
Variable clock : Clock.
Variable maxRetryTime : option Q.

(** [clearTimeout] is reached only when a timer was ever armed. *)
Definition cleared (st : State) : list Event :=
  match timeoutId st with
  | Some id => [TimerCleared id]
  | None => []
  end.

Inductive transition (st : State) (n : nat) : Step * State * list Event -> Prop :=
| t_success v :
    input n = Fulfils v ->
    transition st n (Settle (Resolved v), st, [Invoked n])
| t_non_error v repr :
    input n = Raises v ->
    (forall e, v <> JError e) ->
    toStr v = Some repr ->
    transition st n
      (Settle (Rejected (JError (newTypeError ByEngine (nonErrorMessage repr)))),
       st, [Invoked n])
| t_unprintable v :
    input n = Raises v ->
    (forall e, v <> JError e) ->
    toStr v = None ->
    transition st n (Unsettled, st, [Invoked n])
| t_fatal err v :
    input n = Raises (JError err) ->
    classify err = StopWith v ->
    transition st n
      (Settle (Rejected v), set_timeouts st [], Invoked n :: cleared st)
| t_observer_failed err v :
    input n = Raises (JError err) ->
    classify err = Retryable ->
    opts_onFailedAttempt opts (attemptErrorFor (opts_retries opts) err n) = Some v ->
    transition st n
      (Settle (Rejected v), st,
       [Invoked n; Observed (attemptErrorFor (opts_retries opts) err n)])
| t_budget_expired err :
    input n = Raises (JError err) ->
    classify err = Retryable ->
    opts_onFailedAttempt opts (attemptErrorFor (opts_retries opts) err n) = None ->
    budgetExpired (clock (attempts st)) (operationStart st) maxRetryTime = true ->
    transition st n
      (Settle (Rejected
                 (rejectionOf (mainError (timeoutMarker :: errors st ++ [err]))
                    JNull)),
       set_errors st (timeoutMarker :: errors st ++ [err]),
       [Invoked n; Observed (attemptErrorFor (opts_retries opts) err n)])
| t_schedule_empty err :
    input n = Raises (JError err) ->
    classify err = Retryable ->
    opts_onFailedAttempt opts (attemptErrorFor (opts_retries opts) err n) = None ->
    budgetExpired (clock (attempts st)) (operationStart st) maxRetryTime = false ->
    timeouts st = [] ->
    transition st n
      (Settle (Rejected (rejectionOf (mainError (errors st ++ [err])) JNull)),
       set_errors st (errors st ++ [err]),
       [Invoked n; Observed (attemptErrorFor (opts_retries opts) err n)])
| t_retrying err timeout rest :
    input n = Raises (JError err) ->
    classify err = Retryable ->
    opts_onFailedAttempt opts (attemptErrorFor (opts_retries opts) err n) = None ->
    budgetExpired (clock (attempts st)) (operationStart st) maxRetryTime = false ->
    timeouts st = timeout :: rest ->
    transition st n
      (Scheduled,
       set_timeoutId (set_timeouts (set_errors st (errors st ++ [err])) rest)
         (Some (attempts st)),
       [Invoked n; Observed (attemptErrorFor (opts_retries opts) err n);
        TimerSet (attempts st) timeout]).

End Transitions.

(** The retryable failure of attempt [n], when that attempt ends in one. *)
Definition failureAt (input : RetryInput) (n : nat) : option JsError :=
  match input n with
  | Raises (JError err) =>
      match classify err with
      | Retryable => Some err
      | StopWith _ => None
      end
  | _ => None
  end.

(** The promise [retry] returns: [retry] never completes by throwing. *)
Definition session (input : RetryInput) (options : RetryOptions) (clock : Clock)
    : Promise :=
  newPromise (executor input options clock).


(** The configuration failure. *)
Definition configError : JsError :=
  newError ByEngine "minTimeout must be less than maxTimeout".

(** The schedule [retry] generates from the merged options, and the state the
    first attempt starts from. *)
Definition scheduleOf (options : RetryOptions) : list Q :=
  generateTimeouts (opts_retries (mergeOptions options))
    (opts_minTimeout (mergeOptions options))
    (opts_maxTimeout (mergeOptions options))
    (opts_factor (mergeOptions options)).

Definition firstState (options : RetryOptions) (clock : Clock) : State :=
  {| timeouts := scheduleOf options; errors := [];
     operationStart := clock 0%nat; attempts := 1; timeoutId := None |}.

(** "Thrown to the caller": the call of [retry] itself completes by throwing. *)
Definition thrown_synchronously (input : RetryInput) (options : RetryOptions)
    (clock : Clock) : Prop :=
  exists v, retry input options clock = Throw v.

(** "Took the timeout-expired path": the marker was put in front of the
    accumulator. *)
Definition took_timeout_path (p : Promise) : Prop :=
  exists st, vars p = Some st /\ head (errors st) = Some timeoutMarker.

(** ** Sample inputs *)

(** The fixture of the test suite: [new Error('fixture')]. *)
Definition fixtureError : JsError := newError (ByCaller 1) "fixture".

(** An operation that fails with the same object on every attempt. *)
Definition alwaysFails (err : JsError) : RetryInput := fun _ => Raises (JError err).

(** The readings of the clock in the test [should call onFailedAttempt
    before last rejection]: every attempt takes 40 ms, the timers 1000, 2000
    and 4000 ms. *)
Definition testClock : Clock :=
  fun n =>
    match n with
    | 0%nat => 0
    | 1%nat => 40
    | 2%nat => 1080
    | 3%nat => 3120
    | _ => 7160
    end%Z.


Definition withRetries (n : nat) : RetryOptions :=
  {| retries := Some n; factor := None; minTimeout := None; maxTimeout := None;
     onFailedAttempt := None |}.

Definition invalidBounds : RetryOptions :=
  {| retries := None; factor := None; minTimeout := Some 2000;
     maxTimeout := Some (Fin 1000); onFailedAttempt := None |}.

(** An observer that throws [new Error('thrown from onFailedAttempt')]. *)
Definition observerError : JsError :=
  newError (ByCaller 2) "thrown from onFailedAttempt".

Definition throwingObserver : RetryOptions :=
  {| retries := None; factor := None; minTimeout := None; maxTimeout := None;
     onFailedAttempt := Some (fun _ => Some (JError observerError)) |}.

(** Options with both a number of retries and an observer of the caller's,
    and an observer that throws when it is told of the second attempt. *)
Definition observedRetries (n : nat) (obs : Observer) : RetryOptions :=
  {| retries := Some n; factor := None; minTimeout := None; maxTimeout := None;
     onFailedAttempt := Some obs |}.

Definition throwsAtSecond : Observer :=
  fun a =>
    if Nat.eqb (AttemptError.attemptNumber a) 2 then Some (JError observerError)
    else None.


(** The operations of the test suite: two failures, then the third attempt
    ends as [third] says. *)
Definition failsTwice (err : JsError) (third : Outcome) : RetryInput :=
  fun attemptNumber =>
    match attemptNumber with
    | 3%nat => third
    | _ => Raises (JError err)
    end.

(** The value the test suite resolves with: [Symbol('fixture')]. *)
Definition fixture : JsValue := JSymbol "fixture".

(** ** Vocabulary of the further properties *)

(** The retryable failures of the attempts [1 .. k], in order. *)
Definition failuresUpTo (input : RetryInput) (k : nat) : list JsError :=
  omap (failureAt input) (seq 1 k).

(** The failure [new AbortError(arg)] wraps. *)
Definition wrappedBy (addr' : nat) (arg : string + JsError) : JsError :=
  match arg with
  | inr e => e
  | inl msg => newError (ByCaller addr') msg
  end.

(** Attempt [n] throws a value that is not an error and that the template
    literal cannot convert to a string. *)
Definition unprintableAt (input : RetryInput) (n : nat) : Prop :=
  exists v, input n = Raises v /\ (forall e, v <> JError e) /\ toStr v = None.
(** * Properties *)

(** ** The schedule generator *)

Section Schedule.

Variables (min : Q) (max : JsNumber) (factor : Q).

Lemma generateTimeouts_loop_unfold (fuel i : nat) (acc : list Q) :
  generateTimeouts_loop fuel i min max factor acc
  = acc ++ map (loop_delay min max factor) (seq i fuel).
Proof.
  revert i acc.
  induction fuel as [|fuel IH]; intros i acc; simpl.
  - by rewrite app_nil_r.
  - rewrite IH. by rewrite <- app_assoc.
Qed.

Lemma generateTimeouts_map (retries : nat) :
  generateTimeouts retries min max factor = map (loop_delay min max factor) (seq 0 retries).
Proof. unfold generateTimeouts. by rewrite generateTimeouts_loop_unfold. Qed.

Lemma generateTimeouts_length (retries : nat) :
  length (generateTimeouts retries min max factor) = retries.
Proof. by rewrite generateTimeouts_map, length_map, length_seq. Qed.

Lemma generateTimeouts_lookup (retries i : nat) :
  (i < retries)%nat ->
  generateTimeouts retries min max factor !! i = Some (loop_delay min max factor i).
Proof.
  intros Hi. rewrite generateTimeouts_map, list_lookup_fmap.
  by rewrite lookup_seq_lt.
Qed.

Lemma generateTimeouts_lookup_inv (retries i : nat) (t : Q) :
  generateTimeouts retries min max factor !! i = Some t ->
  (i < retries)%nat /\ t = loop_delay min max factor i.
Proof.
  intros H. assert (Hi : (i < retries)%nat).
  { apply lookup_lt_Some in H. by rewrite generateTimeouts_length in H. }
  split; [done|]. rewrite generateTimeouts_lookup in H by done. congruence.
Qed.

Lemma loop_delay_scheduled (i : nat) : loop_delay min max factor i = scheduled_delay min max factor i.
Proof. unfold loop_delay, scheduled_delay. by destruct max. Qed.

End Schedule.

Example generateTimeouts_test : generateTimeouts_default = [10; 60; 360; 2160; 12960].
Proof. vm_compute. reflexivity. Qed.

Example generateTimeouts_half : generateTimeouts 3 10 Infinity (1 # 2) = [10; 5; 3].
Proof. vm_compute. reflexivity. Qed.


(** [Math.round] returns the integer nearest to its argument, the upper one
    when two are equally near. *)
Lemma Math_round_nearest (x : Q) :
  x - (1 # 2) < Math_round x /\ Math_round x <= x + (1 # 2).
Proof.
  unfold Math_round. split.
  - pose proof (Qlt_floor (x + (1 # 2))) as H.
    rewrite inject_Z_plus in H. change (inject_Z 1) with 1 in H. lra.
  - apply Qfloor_le.
Qed.

Lemma Math_round_mono (x y : Q) : x <= y -> Math_round x <= Math_round y.
Proof.
  intros H. unfold Math_round. rewrite <- Zle_Qle.
  apply Qfloor_resp_le. by apply Qplus_le_l.
Qed.



Lemma Math_min_capped (x : Q) (max : JsNumber) : Num.le (Math_min x max) max.
Proof. destruct max as [m|]; simpl; [apply Q.le_min_r|done]. Qed.








(** ** The representative failure *)

Section MainError.

Implicit Types (l pre : list JsError) (e x : JsError) (m : string).

Lemma tally_app m l l' : tally m (l ++ l') = (tally m l + tally m l')%nat.
Proof. unfold tally. by rewrite filter_app, length_app. Qed.

Lemma tally_one m x :
  tally m [x] = if decide (message x = m) then 1%nat else 0%nat.
Proof.
  unfold tally. rewrite filter_cons, filter_nil.
  by destruct (decide (message x = m)).
Qed.

Lemma runningCount_app_l pre l i :
  (i < length pre)%nat -> runningCount (pre ++ l) i = runningCount pre i.
Proof.
  intros Hi. unfold runningCount.
  rewrite lookup_app_l by done.
  rewrite take_app_le by lia. done.
Qed.

Lemma runningCount_last pre x :
  runningCount (pre ++ [x]) (length pre) = (tally (message x) pre + 1)%nat.
Proof.
  unfold runningCount.
  rewrite list_lookup_middle by done.
  rewrite take_ge by (rewrite length_app; simpl; lia).
  rewrite tally_app, tally_one. by rewrite decide_True.
Qed.

Lemma runningCount_pos l i e : l !! i = Some e -> (1 <= runningCount l i)%nat.
Proof.
  intros H. unfold runningCount. rewrite H.
  rewrite (take_S_r l i e H), tally_app, tally_one.
  rewrite decide_True by done. lia.
Qed.

(** Every counted failure scanned so far has a running count no higher than
    the representative's. *)
Lemma representative_highest pre i e j e' :
  representative pre i e -> pre !! j = Some e' -> ~ inherited (message e') ->
  (runningCount pre j <= runningCount pre i)%nat.
Proof.
  intros (Hi & _ & Hbefore & Hafter) Hj Hn.
  destruct (Nat.lt_trichotomy j i) as [Hlt|[->|Hgt]].
  - by eapply Hbefore.
  - done.
  - apply Nat.lt_le_incl. by eapply Hafter.
Qed.

Lemma representative_keep pre i e x :
  representative pre i e ->
  inherited (message x) \/ (tally (message x) pre + 1 < runningCount pre i)%nat ->
  representative (pre ++ [x]) i e.
Proof.
  intros (Hi & Hn & Hbefore & Hafter) Hx.
  assert (Hlt : (i < length pre)%nat) by by eapply lookup_lt_Some.
  split; [by rewrite lookup_app_l|]. split; [done|]. split.
  - intros j e' Hj He' Hn'.
    rewrite !runningCount_app_l by lia.
    rewrite lookup_app_l in He' by lia. by eapply Hbefore.
  - intros k e' Hk He' Hn'.
    rewrite (runningCount_app_l pre [x] i) by lia.
    destruct (decide (k < length pre)%nat) as [Hkl|Hkl].
    + rewrite runningCount_app_l by lia.
      rewrite lookup_app_l in He' by lia. by eapply Hafter.
    + assert (k = length pre) as ->.
      { apply lookup_lt_Some in He'. rewrite length_app in He'. simpl in He'. lia. }
      rewrite list_lookup_middle in He' by done.
      injection He' as <-.
      rewrite runningCount_last. by destruct Hx.
Qed.

Lemma representative_new pre x :
  ~ inherited (message x) ->
  (forall j e', pre !! j = Some e' -> ~ inherited (message e') ->
     (runningCount pre j <= tally (message x) pre + 1)%nat) ->
  representative (pre ++ [x]) (length pre) x.
Proof.
  intros Hn Hall. split; [by rewrite list_lookup_middle|].
  split; [done|]. split.
  - intros j e' Hj He' Hn'.
    rewrite runningCount_last, runningCount_app_l by done.
    rewrite lookup_app_l in He' by done. by eapply Hall.
  - intros k e' Hk He' _.
    apply lookup_lt_Some in He'. rewrite length_app in He'. simpl in He'. lia.
Qed.

Lemma counted_by_computation m : bool_decide (inherited m) = false -> ~ inherited m.
Proof. apply bool_decide_eq_false. Qed.

Lemma proto_inherited : inherited "__proto__".
Proof. unfold inherited. apply (bool_decide_unpack _). vm_compute. exact I. Qed.

Lemma scanned_init :
  scanned [] {| counts := ∅; mainError_ := None; mainErrorCount := 0 |}.
Proof.
  split; simpl.
  - intros m _. by rewrite lookup_empty.
  - intros m _. left. by rewrite lookup_empty.
  - unfold scanned_best; simpl. by split.
Qed.

(** A failure whose message is inherited leaves the candidate alone: its
    count is a piece of text and the comparison is false. *)
Lemma scanned_step_inherited pre vars x :
  inherited (message x) -> scanned pre vars ->
  scanned (pre ++ [x]) (mainError_body vars x).
Proof.
  intros Hx [Hc Hi Hb].
  assert (Hcount : or0_plus1 (counts_get (counts vars) (message x)) = Text).
  { unfold counts_get. destruct (Hi _ Hx) as [-> | ->]; [|done].
    by rewrite bool_decide_eq_true_2. }
  unfold mainError_body. rewrite Hcount. simpl.
  split; simpl.
  - intros m Hm. rewrite tally_app, tally_one.
    destruct (decide (message x = m)) as [<-|Hne]; [done|].
    rewrite Nat.add_0_r. unfold counts_set. case_bool_decide; [by apply Hc|].
    rewrite lookup_insert_ne by done. by apply Hc.
  - intros m Hm. unfold counts_set. case_bool_decide; [by apply Hi|].
    destruct (decide (message x = m)) as [->|Hne].
    + right. by rewrite lookup_insert_eq.
    + rewrite lookup_insert_ne by done. by apply Hi.
  - unfold scanned_best in *; simpl.
    destruct (mainError_ vars) as [e|].
    + destruct Hb as (i & Hrep & Hcnt). exists i. split.
      * apply representative_keep; [done|by left].
      * assert ((i < length pre)%nat) by (destruct Hrep; by eapply lookup_lt_Some).
        by rewrite runningCount_app_l.
    + destruct Hb as [H0 Hall]. split; [done|].
      apply Forall_app. split; [done|]. by constructor.
Qed.

(** A failure with any other message is counted, and replaces the candidate
    exactly when its count reaches the highest one so far. *)
Lemma scanned_step_counted pre vars x :
  ~ inherited (message x) -> scanned pre vars ->
  scanned (pre ++ [x]) (mainError_body vars x).
Proof.
  intros Hx [Hc Hi Hb].
  assert (Hcount : or0_plus1 (counts_get (counts vars) (message x))
                   = Num (tally (message x) pre + 1)).
  { unfold counts_get. rewrite (Hc _ Hx).
    destruct (decide (tally (message x) pre = 0%nat)) as [->|_]; [|done].
    by rewrite bool_decide_eq_false_2. }
  assert (Hset : forall c, counts_set (counts vars) (message x) c
                           = <[message x := c]> (counts vars)).
  { intros c. unfold counts_set. rewrite bool_decide_eq_false_2; [done|].
    intros Heq. apply Hx. rewrite Heq. apply proto_inherited. }
  assert (Hcounts : forall vars', counts vars' = <[message x := Num (tally (message x) pre + 1)]> (counts vars) ->
    (forall m, ~ inherited m ->
      counts vars' !! m
      = if decide (tally m (pre ++ [x]) = 0%nat) then None
        else Some (Num (tally m (pre ++ [x]))))
    /\ (forall m, inherited m ->
          counts vars' !! m = None \/ counts vars' !! m = Some Text)).
  { intros vars' ->. split.
    - intros m Hm. rewrite tally_app, tally_one.
      destruct (decide (message x = m)) as [->|Hne].
      + rewrite lookup_insert_eq.
        destruct (decide (tally m pre + 1 = 0)%nat); [lia|done].
      + rewrite lookup_insert_ne by done. rewrite Nat.add_0_r. by apply Hc.
    - intros m Hm. rewrite lookup_insert_ne by (intros <-; done). by apply Hi. }
  unfold mainError_body. rewrite Hcount, Hset. simpl.
  case_bool_decide as Hge.
  - destruct (Hcounts {| counts := <[message x := Num (tally (message x) pre + 1)]> (counts vars);
                         mainError_ := Some x;
                         mainErrorCount := (tally (message x) pre + 1)%nat |} eq_refl)
      as [Hc' Hi'].
    split; [done|done|]. unfold scanned_best in *; simpl.
    exists (length pre). split; [|by rewrite runningCount_last].
    apply representative_new; [done|].
    intros j e' Hj Hn'. destruct (mainError_ vars) as [e|].
    + destruct Hb as (i & Hrep & Hcnt).
      pose proof (representative_highest _ _ _ _ _ Hrep Hj Hn'). lia.
    + destruct Hb as [_ Hall]. rewrite Forall_lookup in Hall.
      by specialize (Hall _ _ Hj).
  - destruct (Hcounts {| counts := <[message x := Num (tally (message x) pre + 1)]> (counts vars);
                         mainError_ := mainError_ vars;
                         mainErrorCount := mainErrorCount vars |} eq_refl)
      as [Hc' Hi'].
    split; [done|done|]. unfold scanned_best in *; simpl.
    destruct (mainError_ vars) as [e|].
    + destruct Hb as (i & Hrep & Hcnt). exists i. split.
      * apply representative_keep; [done|right; lia].
      * assert ((i < length pre)%nat) by (destruct Hrep; by eapply lookup_lt_Some).
        by rewrite runningCount_app_l.
    + destruct Hb as [H0 _]. lia.
Qed.

Lemma scanned_step pre vars x :
  scanned pre vars -> scanned (pre ++ [x]) (mainError_body vars x).
Proof.
  destruct (decide (inherited (message x)));
    [by apply scanned_step_inherited | by apply scanned_step_counted].
Qed.

Lemma scanned_fold l pre vars :
  scanned pre vars -> scanned (pre ++ l) (fold_left mainError_body l vars).
Proof.
  revert pre vars. induction l as [|x l IH]; intros pre vars H; simpl.
  - by rewrite app_nil_r.
  - rewrite (cons_middle x pre l), app_assoc. apply IH. by apply scanned_step.
Qed.

(** What [mainError] returns, for every accumulator. *)
Lemma mainError_scanned l :
  match mainError l with
  | Some e => exists i, representative l i e
  | None => Forall (fun e => inherited (message e)) l
  end.
Proof.
  unfold mainError. case_bool_decide as Hlen.
  - apply length_zero_iff_nil in Hlen. subst. constructor.
  - pose proof (scanned_fold l [] _ scanned_init) as [_ _ Hb].
    simpl in Hb. unfold scanned_best in Hb.
    destruct (mainError_ _) as [e|].
    + destruct Hb as (i & Hrep & _). by exists i.
    + by destruct Hb.
Qed.



End MainError.

(** ** Classification *)

Lemma isNetworkError_spec (msg : string) :
  isNetworkError msg = true <-> knownTransient msg.
Proof.
  unfold isNetworkError, networkErrorMsgs, knownTransient. simpl.
  rewrite !orb_true_iff, !String.eqb_eq. intuition discriminate.
Qed.

Lemma classify_fatal (err : JsError) (v : JsValue) :
  classify err = StopWith v ->
  (instanceof err AbortErrorClass = true
   /\ v = rejectionOf (originalError err) JUndefined)
  \/ (instanceof err AbortErrorClass = false
      /\ instanceof err TypeErrorClass && negb (isNetworkError (message err)) = true
      /\ v = JError err).
Proof.
  unfold classify, instanceof. destruct (class err); try discriminate.
  - destruct (decide (knownTransient (message err))) as [Hk|Hk]; [discriminate|].
    intros [= <-]. right. repeat split; simpl.
    apply negb_true_iff, not_true_is_false. by rewrite isNetworkError_spec.
  - intros [= <-]. by left.
Qed.

Lemma classify_retryable (err : JsError) :
  classify err = Retryable ->
  instanceof err AbortErrorClass = false
  /\ instanceof err TypeErrorClass && negb (isNetworkError (message err)) = false.
Proof.
  unfold classify, instanceof. destruct (class err); try discriminate; try done.
  destruct (decide (knownTransient (message err))) as [Hk|Hk]; [|discriminate].
  intros _. split; [done|]. simpl. apply negb_false_iff.
  by rewrite isNetworkError_spec.
Qed.

(** ** The attempt callback *)

Section Engine.

Variable input : RetryInput.
Variable opts : Opts.
Variable clock : Clock.
Variable maxRetryTime : option Q.

#[local] Abbreviation fn := (Executor.fn input opts clock maxRetryTime).
#[local] Abbreviation run := (Executor.run input opts clock maxRetryTime).
#[local] Abbreviation transition := (transition input opts clock maxRetryTime).
#[local] Abbreviation attemptErr := (attemptErrorFor (opts_retries opts)).

Lemma fn_success st n v :
  input n = Fulfils v -> fn st n = (Settle (Resolved v), st, [Invoked n]).
Proof. intros H. unfold Executor.fn. by rewrite H. Qed.

Lemma fn_non_error st n v repr :
  input n = Raises v -> (forall e, v <> JError e) -> toStr v = Some repr ->
  fn st n
  = (Settle (Rejected (JError (newTypeError ByEngine (nonErrorMessage repr)))), st,
     [Invoked n]).
Proof.
  intros H Hv Hs. unfold Executor.fn. rewrite H.
  destruct v as [| | | | |e]; try (by rewrite Hs). by destruct (Hv e).
Qed.

Lemma fn_unprintable st n v :
  input n = Raises v -> (forall e, v <> JError e) -> toStr v = None ->
  fn st n = (Unsettled, st, [Invoked n]).
Proof.
  intros H Hv Hs. unfold Executor.fn. rewrite H.
  destruct v as [| | | | |e]; try (by rewrite Hs). by destruct (Hv e).
Qed.

Lemma fn_fatal st n err v :
  input n = Raises (JError err) -> classify err = StopWith v ->
  fn st n = (Settle (Rejected v), set_timeouts st [], Invoked n :: cleared st).
Proof.
  intros H Hc. unfold Executor.fn. rewrite H.
  destruct (classify_fatal _ _ Hc) as [[-> ->]|(-> & -> & ->)]; done.
Qed.

Lemma fn_retryable st n err :
  input n = Raises (JError err) -> classify err = Retryable ->
  fn st n
  = match opts_onFailedAttempt opts (attemptErr err n) with
    | Some error =>
        (Settle (Rejected error), st, [Invoked n; Observed (attemptErr err n)])
    | None =>
        let '(again, st', evs) := Executor.retry clock maxRetryTime st err in
        if again then
          (Scheduled, st', Invoked n :: Observed (attemptErr err n) :: evs)
        else
          (Settle (Rejected (rejectionOf (mainError (errors st')) JNull)), st',
           Invoked n :: Observed (attemptErr err n) :: evs)
    end.
Proof.
  intros H Hc. unfold Executor.fn. rewrite H.
  by destruct (classify_retryable _ Hc) as [-> ->].
Qed.

Lemma fn_observer_failed st n err v :
  input n = Raises (JError err) -> classify err = Retryable ->
  opts_onFailedAttempt opts (attemptErr err n) = Some v ->
  fn st n = (Settle (Rejected v), st, [Invoked n; Observed (attemptErr err n)]).
Proof. intros H Hc Ho. rewrite (fn_retryable _ _ _ H Hc). by rewrite Ho. Qed.

Lemma fn_budget_expired st n err :
  input n = Raises (JError err) -> classify err = Retryable ->
  opts_onFailedAttempt opts (attemptErr err n) = None ->
  budgetExpired (clock (attempts st)) (operationStart st) maxRetryTime = true ->
  fn st n
  = (Settle (Rejected
               (rejectionOf (mainError (timeoutMarker :: errors st ++ [err])) JNull)),
     set_errors st (timeoutMarker :: errors st ++ [err]),
     [Invoked n; Observed (attemptErr err n)]).
Proof.
  intros H Hc Ho Hb. rewrite (fn_retryable _ _ _ H Hc), Ho.
  unfold Executor.retry. by rewrite Hb.
Qed.

Lemma fn_schedule_empty st n err :
  input n = Raises (JError err) -> classify err = Retryable ->
  opts_onFailedAttempt opts (attemptErr err n) = None ->
  budgetExpired (clock (attempts st)) (operationStart st) maxRetryTime = false ->
  timeouts st = [] ->
  fn st n
  = (Settle (Rejected (rejectionOf (mainError (errors st ++ [err])) JNull)),
     set_errors st (errors st ++ [err]),
     [Invoked n; Observed (attemptErr err n)]).
Proof.
  intros H Hc Ho Hb Ht. rewrite (fn_retryable _ _ _ H Hc), Ho.
  unfold Executor.retry. rewrite Hb. simpl. by rewrite Ht.
Qed.

Lemma fn_retrying st n err timeout rest :
  input n = Raises (JError err) -> classify err = Retryable ->
  opts_onFailedAttempt opts (attemptErr err n) = None ->
  budgetExpired (clock (attempts st)) (operationStart st) maxRetryTime = false ->
  timeouts st = timeout :: rest ->
  fn st n
  = (Scheduled,
     set_timeoutId (set_timeouts (set_errors st (errors st ++ [err])) rest)
       (Some (attempts st)),
     [Invoked n; Observed (attemptErr err n); TimerSet (attempts st) timeout]).
Proof.
  intros H Hc Ho Hb Ht. rewrite (fn_retryable _ _ _ H Hc), Ho.
  unfold Executor.retry. rewrite Hb. simpl. by rewrite Ht.
Qed.

(** The callback takes exactly one transition of the state machine. *)
Lemma fn_transition st n : transition st n (fn st n).
Proof.
  destruct (input n) as [v|v] eqn:Hin.
  - rewrite (fn_success _ _ _ Hin). by constructor.
  - destruct v as [| | | | |err].
    1-3: erewrite fn_non_error by done; by econstructor.
    1-2: rewrite (fn_unprintable _ _ _ Hin) by done; by econstructor.
    destruct (classify err) as [v|] eqn:Hc.
    + rewrite (fn_fatal _ _ _ _ Hin Hc). by econstructor.
    + destruct (opts_onFailedAttempt opts (attemptErr err n)) as [v|] eqn:Ho.
      * rewrite (fn_observer_failed _ _ _ _ Hin Hc Ho). by econstructor.
      * destruct (budgetExpired (clock (attempts st)) (operationStart st)
                    maxRetryTime) eqn:Hb.
        -- rewrite (fn_budget_expired _ _ _ Hin Hc Ho Hb). by econstructor.
        -- destruct (timeouts st) as [|timeout rest] eqn:Ht.
           ++ rewrite (fn_schedule_empty _ _ _ Hin Hc Ho Hb Ht). by econstructor.
           ++ rewrite (fn_retrying _ _ _ _ _ Hin Hc Ho Hb Ht). by econstructor.
Qed.

Lemma run_settle fuel st s st' evs :
  fn st (attempts st) = (Settle s, st', evs) ->
  run (S fuel) st = {| settled := Some s; final := st'; trace := evs |}.
Proof. intros H. simpl. by rewrite H. Qed.

Lemma run_scheduled fuel st st' evs :
  fn st (attempts st) = (Scheduled, st', evs) ->
  run (S fuel) st
  = let r := run fuel (set_attempts st' (S (attempts st'))) in
    {| settled := settled r; final := final r; trace := evs ++ trace r |}.
Proof. intros H. simpl. by rewrite H. Qed.

Lemma run_unsettle fuel st st' evs :
  fn st (attempts st) = (Unsettled, st', evs) ->
  run (S fuel) st = {| settled := None; final := st'; trace := evs |}.
Proof. intros H. simpl. by rewrite H. Qed.

Lemma invocations_app tr tr' : invocations (tr ++ tr') = invocations tr ++ invocations tr'.
Proof. apply omap_app. Qed.

Lemma observations_app tr tr' :
  observations (tr ++ tr') = observations tr ++ observations tr'.
Proof. apply omap_app. Qed.

Lemma timersSet_app tr tr' : timersSet (tr ++ tr') = timersSet tr ++ timersSet tr'.
Proof. apply omap_app. Qed.

Lemma invocations_cleared st : invocations (cleared st) = [].
Proof. unfold cleared. by destruct (timeoutId st). Qed.

Lemma observations_cleared st : observations (cleared st) = [].
Proof. unfold cleared. by destruct (timeoutId st). Qed.

Lemma timersSet_cleared st : timersSet (cleared st) = [].
Proof. unfold cleared. by destruct (timeoutId st). Qed.

Lemma failureAt_Some n err :
  failureAt input n = Some err <->
  input n = Raises (JError err) /\ classify err = Retryable.
Proof.
  unfold failureAt. destruct (input n) as [v|[| | | | |e]]; try (split; [done|intros [? _]; done]).
  destruct (classify e) eqn:Hc; split.
  - done.
  - intros [[= <-] H]. congruence.
  - intros [= <-]. done.
  - intros [[= <-] _]. done.
Qed.

(** What one transition adds to the trace: one call of the operation and,
    when it ended in a retryable failure, one call of the observer. *)
Lemma transition_events st n step st' evs :
  transition st n (step, st', evs) ->
  invocations evs = [n]
  /\ observations evs
     = match failureAt input n with
       | Some err => [attemptErr err n]
       | None => []
       end.
Proof.
  intros T. inversion T; subst; simpl;
    rewrite ?invocations_cleared, ?observations_cleared;
    unfold failureAt;
    repeat match goal with H : input n = _ |- _ => rewrite H end;
    repeat match goal with H : classify _ = _ |- _ => rewrite H end;
    try done.
  all: match goal with
  | Hv : forall e, ?v <> JError e |- _ =>
      destruct v as [| | | | |e]; [done..|by destruct (Hv e)]
  end.
Qed.

(** A transition that arms a timer used up the head of the schedule. *)
Lemma transition_scheduled st n st' evs :
  transition st n (Scheduled, st', evs) ->
  exists err timeout,
    failureAt input n = Some err
    /\ timeouts st = timeout :: timeouts st'
    /\ attempts st' = attempts st
    /\ operationStart st' = operationStart st
    /\ errors st' = errors st ++ [err]
    /\ timersSet evs = [timeout].
Proof.
  intros T. inversion T; subst. exists err, timeout.
  rewrite failureAt_Some. by repeat split.
Qed.

(** A transition that settles the promise arms no timer. *)
Lemma transition_settled st n s st' evs :
  transition st n (Settle s, st', evs) -> timersSet evs = [].
Proof.
  intros T. inversion T; subst; simpl; rewrite ?timersSet_cleared; done.
Qed.

(** A transition that leaves the promise pending: the operation threw a
    value the template literal cannot convert. *)
Lemma transition_unsettled st n st' evs :
  transition st n (Unsettled, st', evs) ->
  st' = st /\ evs = [Invoked n] /\ unprintableAt input n.
Proof.
  intros T. inversion T; subst. repeat split. by exists v.
Qed.

(** A transition that settles or retries did not see such a value. *)
Lemma transition_printable st n step st' evs :
  transition st n (step, st', evs) -> step <> Unsettled ->
  ~ unprintableAt input n.
Proof.
  intros T Hs (v & Hv & Hne & Hstr).
  inversion T; subst; congruence.
Qed.


(** The [i]-th call of the observer is for the retryable failure of attempt
    [attempts st + i], and there are no more such calls than attempts. *)
Lemma run_observations fuel st i a :
  observations (trace (run fuel st)) !! i = Some a ->
  (i <= length (timeouts st))%nat
  /\ exists err, failureAt input (attempts st + i) = Some err
                 /\ a = attemptErr err (attempts st + i).
Proof.
  revert st i. induction fuel as [|fuel IH]; intros st i; [done|].
  pose proof (fn_transition st (attempts st)) as T.
  destruct (fn st (attempts st)) as [[[s| |] st'] evs] eqn:Hfn.
  - rewrite (run_settle _ _ _ _ _ Hfn). simpl.
    destruct (transition_events _ _ _ _ _ T) as [_ ->].
    destruct (failureAt input (attempts st)) as [err|] eqn:Hf; [|done].
    destruct i as [|i]; [|done]. intros [= <-].
    rewrite Nat.add_0_r. split; [lia|]. by exists err.
  - rewrite (run_scheduled _ _ _ _ Hfn). simpl.
    destruct (transition_events _ _ _ _ _ T) as [_ Hobs].
    destruct (transition_scheduled _ _ _ _ T) as (err & t & Hf & Ht & Ha & _).
    rewrite observations_app, Hobs, Hf. simpl.
    destruct i as [|i].
    + intros [= <-]. rewrite Nat.add_0_r. split; [lia|]. by exists err.
    + intros Hi. apply IH in Hi. simpl in Hi. rewrite Ha in Hi.
      rewrite Ht. simpl. replace (attempts st + S i)%nat with (S (attempts st) + i)%nat by lia.
      destruct Hi as [Hle Hi]. split; [lia|done].
  - rewrite (run_unsettle _ _ _ _ Hfn). simpl.
    destruct (transition_events _ _ _ _ _ T) as [_ ->].
    destruct (failureAt input (attempts st)) as [err|] eqn:Hf; [|done].
    destruct i as [|i]; [|done]. intros [= <-].
    rewrite Nat.add_0_r. split; [lia|]. by exists err.
Qed.

(** No retryable failure goes unobserved. *)
Lemma run_observes fuel st n err :
  n ∈ invocations (trace (run fuel st)) ->
  failureAt input n = Some err ->
  attemptErr err n ∈ observations (trace (run fuel st)).
Proof.
  revert st. induction fuel as [|fuel IH]; intros st.
  { simpl. by intros ?%elem_of_nil. }
  pose proof (fn_transition st (attempts st)) as T.
  destruct (fn st (attempts st)) as [[[s| |] st'] evs] eqn:Hfn.
  - rewrite (run_settle _ _ _ _ _ Hfn). simpl.
    destruct (transition_events _ _ _ _ _ T) as [-> ->].
    intros ->%list_elem_of_singleton Hf. rewrite Hf. by apply list_elem_of_singleton.
  - rewrite (run_scheduled _ _ _ _ Hfn). simpl.
    destruct (transition_events _ _ _ _ _ T) as [Hinv Hobs].
    rewrite invocations_app, observations_app, Hinv, Hobs.
    intros [->%list_elem_of_singleton|Hin]%elem_of_app Hf.
    + rewrite Hf. apply elem_of_app. left. by apply list_elem_of_singleton.
    + apply elem_of_app. right. by apply IH.
  - rewrite (run_unsettle _ _ _ _ Hfn). simpl.
    destruct (transition_events _ _ _ _ _ T) as [-> ->].
    intros ->%list_elem_of_singleton Hf. rewrite Hf. by apply list_elem_of_singleton.
Qed.

(** One timer is armed between two consecutive attempts, with the delays of
    the schedule in order. *)
Lemma run_timers fuel st :
  timersSet (trace (run fuel st))
  = take (length (timersSet (trace (run fuel st)))) (timeouts st)
  /\ (is_Some (settled (run fuel st)) ->
      S (length (timersSet (trace (run fuel st))))
      = length (invocations (trace (run fuel st)))).
Proof.
  revert st. induction fuel as [|fuel IH]; intros st.
  { simpl. split; [done|]. by intros [? ?]. }
  pose proof (fn_transition st (attempts st)) as T.
  destruct (fn st (attempts st)) as [[[s| |] st'] evs] eqn:Hfn.
  - rewrite (run_settle _ _ _ _ _ Hfn). simpl.
    rewrite (transition_settled _ _ _ _ _ T).
    destruct (transition_events _ _ _ _ _ T) as [-> _]. done.
  - rewrite (run_scheduled _ _ _ _ Hfn). simpl.
    destruct (transition_events _ _ _ _ _ T) as [Hinv _].
    destruct (transition_scheduled _ _ _ _ T) as (err & t & _ & Ht & _ & _ & _ & Htm).
    destruct (IH (set_attempts st' (S (attempts st')))) as [Htake Hlen].
    rewrite timersSet_app, invocations_app, Htm, Hinv, Ht. simpl. split.
    + f_equal. exact Htake.
    + intros Hs. f_equal. by apply Hlen.
  - rewrite (run_unsettle _ _ _ _ Hfn). simpl.
    destruct (transition_unsettled _ _ _ _ T) as (_ & -> & _). simpl.
    split; [done|]. by intros [? ?].
Qed.


(** With fuel for the whole schedule the promise settles, unless an attempt
    threw a value that cannot be converted to a string: then that attempt is
    the last event and the promise stays pending. *)
Lemma run_outcome fuel st :
  (length (timeouts st) < fuel)%nat ->
  (is_Some (settled (run fuel st))
   /\ forall n, n ∈ invocations (trace (run fuel st)) -> ~ unprintableAt input n)
  \/ (settled (run fuel st) = None
      /\ exists n, last (trace (run fuel st)) = Some (Invoked n)
                   /\ unprintableAt input n).
Proof.
  revert st. induction fuel as [|fuel IH]; intros st Hlt; [lia|].
  pose proof (fn_transition st (attempts st)) as T.
  destruct (fn st (attempts st)) as [[[s| |] st'] evs] eqn:Hfn.
  - rewrite (run_settle _ _ _ _ _ Hfn). simpl. left. split; [done|].
    destruct (transition_events _ _ _ _ _ T) as [-> _].
    intros n ->%list_elem_of_singleton.
    by apply (transition_printable _ _ _ _ _ T).
  - rewrite (run_scheduled _ _ _ _ Hfn). simpl.
    destruct (transition_events _ _ _ _ _ T) as [Hinv _].
    destruct (transition_scheduled _ _ _ _ T) as (err & t & _ & Ht & _).
    destruct (IH (set_attempts st' (S (attempts st')))) as [[Hs Hp]|[Hs (n & Hl & Hu)]].
    { simpl. rewrite Ht in Hlt. simpl in Hlt. lia. }
    + left. split; [done|]. intros n. rewrite invocations_app, Hinv.
      intros [->%list_elem_of_singleton|Hin]%elem_of_app; [|by apply Hp].
      by apply (transition_printable _ _ _ _ _ T).
    + right. split; [done|]. exists n. split; [|done].
      rewrite last_app, Hl. done.
  - rewrite (run_unsettle _ _ _ _ Hfn). simpl. right. split; [done|].
    destruct (transition_unsettled _ _ _ _ T) as (_ & -> & Hu).
    by exists (attempts st).
Qed.

End Engine.

(** * Binary64 arithmetic *)

Lemma pow2_pos (e : Z) : 0 < 2 ^ e.
Proof. by apply Qpower_0_lt. Qed.

Lemma pow2_inject (k : Z) : (0 <= k)%Z -> inject_Z (2 ^ k) == 2 ^ k.
Proof. intros Hk. by rewrite Zpower_Qpower. Qed.

Lemma pow2_le (a b : Z) : (a <= b)%Z -> 2 ^ a <= 2 ^ b.
Proof. intros H. by apply Qpower_le_compat_l. Qed.

Lemma pow2_plus (a b : Z) : 2 ^ (a + b) == 2 ^ a * 2 ^ b.
Proof. by apply Qpower_plus. Qed.

Lemma pow2_minus (a b : Z) : 2 ^ (a - b) == 2 ^ a / 2 ^ b.
Proof. by apply Qpower_minus. Qed.

(** [ilog2] does not overshoot. *)
Lemma ilog2_le (q : Q) : 0 < q -> 2 ^ Double.ilog2 q <= q.
Proof.
  intros Hq. unfold Double.ilog2.
  destruct (Qle_bool _ q) eqn:Hb; [by apply Qle_bool_iff|].
  destruct q as [n d]. cbn [Qnum Qden].
  assert (Hn : (0 < n)%Z).
  { unfold Qlt in Hq. simpl in Hq. lia. }
  pose proof (Z.log2_spec n Hn) as [Ha _].
  pose proof (Z.log2_spec (Z.pos d) (Pos2Z.is_pos d)) as [_ Hd].
  pose proof (Z.log2_nonneg n) as Ha0.
  pose proof (Z.log2_nonneg (Z.pos d)) as Hb0.
  replace (Z.log2 n - Z.log2 (Z.pos d) - 1)%Z
    with (Z.log2 n - Z.succ (Z.log2 (Z.pos d)))%Z by lia.
  rewrite pow2_minus, <- !pow2_inject by lia.
  rewrite (Qmake_Qdiv n d).
  assert (H0d : 0 < inject_Z (Z.pos d)).
  { change 0 with (inject_Z 0). rewrite <- Zlt_Qlt. lia. }
  assert (H0p : 0 < inject_Z (2 ^ Z.succ (Z.log2 (Z.pos d)))).
  { change 0 with (inject_Z 0). rewrite <- Zlt_Qlt. lia. }
  apply Qle_shift_div_l; [done|].
  unfold Qdiv. rewrite <- Qmult_assoc, (Qmult_comm (/ _)), Qmult_assoc.
  apply Qle_shift_div_r; [done|].
  rewrite <- !inject_Z_mult, <- Zle_Qle. nia.
Qed.

Lemma nearest_even_Z (x : Q) (z : Z) : x == inject_Z z -> Double.nearest_even x = z.
Proof.
  intros Hx. unfold Double.nearest_even.
  rewrite (Qfloor_comp _ _ Hx), Qfloor_Z.
  assert (H : Qcompare (x - inject_Z z) (1 # 2) = Lt).
  { apply Qlt_alt. rewrite Hx. unfold Qminus. rewrite Qplus_opp_r. reflexivity. }
  by rewrite H.
Qed.

Lemma Qred_inject_Z (z : Z) : Qred (inject_Z z) = inject_Z z.
Proof.
  unfold Qred, inject_Z.
  pose proof (Z.ggcd_gcd z 1) as Hg.
  pose proof (Z.ggcd_correct_divisors z 1) as Hd.
  destruct (Z.ggcd z 1) as [g [a b]]. simpl in *.
  rewrite Z.gcd_1_r in Hg. subst g. destruct Hd as [Ha Hb].
  f_equal; [lia|]. destruct b; lia.
Qed.

Lemma Qabs_scaled (m e : Z) :
  Qabs (inject_Z m * 2 ^ e) == inject_Z (Z.abs m) * 2 ^ e.
Proof.
  rewrite Qabs_Qmult. rewrite (Qabs_pos (2 ^ e)) by apply Qlt_le_weak, pow2_pos.
  reflexivity.
Qed.

Lemma Qabs_nonzero (q : Q) : ~ q == 0 -> 0 < Qabs q.
Proof.
  intros H. destruct (Qlt_le_dec 0 q) as [Hp|Hn].
  - rewrite Qabs_pos; [done|by apply Qlt_le_weak].
  - rewrite Qabs_neg by done. apply Qle_lteq in Hn as [Hn|Hn]; [lra|done].
Qed.

(** Rounding leaves a binary64 number as it is. *)
Lemma roundTiesToEven_representable (q : Q) :
  Double.representable q -> Double.roundTiesToEven q = Double.Finite (Qred q).
Proof.
  intros (m & e & Hm & He & Hq). unfold Double.roundTiesToEven.
  destruct (Qeq_bool q 0) eqn:H0.
  { apply Qeq_bool_iff in H0. by rewrite (Qred_complete _ _ H0). }
  apply Qeq_bool_neq in H0.
  set (e' := Z.max (Double.ilog2 (Qabs q) - 52) (-1074)).
  assert (Habs : Qabs q == inject_Z (Z.abs m) * 2 ^ e).
  { by rewrite Hq, Qabs_scaled. }
  assert (Hlt : Qabs q < 2 ^ (e + 53)).
  { rewrite Habs, pow2_plus, Qmult_comm.
    apply Qmult_lt_l; [apply pow2_pos|].
    rewrite <- pow2_inject by lia. by rewrite <- Zlt_Qlt. }
  assert (Hle : (e' <= e)%Z).
  { unfold e'. apply Z.max_lub; [|lia].
    destruct (Z_le_gt_dec (Double.ilog2 (Qabs q) - 52) e) as [|Hgt]; [done|exfalso].
    pose proof (ilog2_le _ (Qabs_nonzero _ H0)) as Hl.
    pose proof (pow2_le (e + 53) (Double.ilog2 (Qabs q)) ltac:(lia)) as Hp.
    lra. }
  assert (Hdiv : q / 2 ^ e' == inject_Z (m * 2 ^ (e - e'))).
  { rewrite inject_Z_mult, pow2_inject, pow2_minus, Hq by lia.
    by unfold Qdiv; rewrite Qmult_assoc. }
  rewrite (nearest_even_Z _ _ Hdiv).
  assert (Hback : inject_Z (m * 2 ^ (e - e')) * 2 ^ e' == q).
  { rewrite <- Hdiv. field. apply Qnot_eq_sym, Qlt_not_eq, pow2_pos. }
  rewrite (Qred_complete _ _ Hback).
  assert (Hov : Qle_bool (2 ^ 1024) (Qabs (Qred q)) = false).
  { apply not_true_iff_false. rewrite Qle_bool_iff, Qred_correct.
    apply Qlt_not_le. eapply Qlt_le_trans; [exact Hlt|].
    apply pow2_le. lia. }
  by rewrite Hov.
Qed.

(** What rounding does to numbers that are not binary64 numbers: the
    literals [0.1] and [1.15], a tie between two neighbours, the least
    subnormal, and overflow. *)
Example roundTiesToEven_examples :
  Double.roundTiesToEven (1 # 10)
  = Double.Finite (3602879701896397 # 36028797018963968)
  /\ Double.roundTiesToEven (115 # 100) = Double.Finite (Qred literal_1_15)
  /\ Double.roundTiesToEven 9007199254740993 = Double.Finite 9007199254740992
  /\ Double.roundTiesToEven 9007199254740995 = Double.Finite 9007199254740996
  /\ Double.roundTiesToEven (3 * 2 ^ (-1075)) = Double.Finite (Qred (2 ^ (-1073)))
  /\ Double.roundTiesToEven (2 ^ (-1075)) = Double.Finite 0
  /\ Double.roundTiesToEven (2 ^ 1024 - 2 ^ 970) = Double.PosInfinity
  /\ Double.roundTiesToEven (- 2 ^ 1024) = Double.NegInfinity.
Proof. repeat split; vm_compute; reflexivity. Qed.


Lemma representable_comp (p q : Q) :
  p == q -> Double.representable p -> Double.representable q.
Proof.
  intros Hpq (m & e & Hm & He & Hp). exists m, e. by rewrite <- Hpq.
Qed.


(** ** The loop on binary64 numbers *)

Lemma Double_loop_unfold fuel i min max factor acc :
  Double.generateTimeouts_loop fuel i min max factor acc
  = acc ++ map (Double.loop_delay min max factor) (seq i fuel).
Proof.
  revert i acc. induction fuel as [|fuel IH]; intros i acc; simpl.
  - by rewrite app_nil_r.
  - rewrite IH, <- app_assoc. done.
Qed.

Lemma Double_generateTimeouts_map retries min max factor :
  Double.generateTimeouts retries min max factor
  = map (Double.loop_delay min max factor) (seq 0 retries).
Proof. unfold Double.generateTimeouts. by rewrite Double_loop_unfold. Qed.

Lemma Double_generateTimeouts_length retries min max factor :
  length (Double.generateTimeouts retries min max factor) = retries.
Proof. by rewrite Double_generateTimeouts_map, length_map, length_seq. Qed.

Lemma Double_generateTimeouts_lookup retries min max factor i :
  (i < retries)%nat ->
  Double.generateTimeouts retries min max factor !! i
  = Some (Double.loop_delay min max factor i).
Proof.
  intros Hi. rewrite Double_generateTimeouts_map, list_lookup_fmap.
  by rewrite lookup_seq_lt.
Qed.

(** When neither the power nor the product has to be rounded, the loop body
    computes the number the exact expression denotes. *)
Lemma Double_loop_delay_exact (min : Q) (max : JsNumber) (factor : Q) (i : nat) :
  Double.representable (factor ^ Z.of_nat i) ->
  Double.representable (Qmax min 1 * factor ^ Z.of_nat i) ->
  Double.loop_delay (Double.Finite min) (Double.ofNum max) (Double.Finite factor) i
  = Double.Finite (scheduled_delay min max factor i).
Proof.
  intros Hp Hm. unfold Double.loop_delay, scheduled_delay.
  cbn [Double.Math_max].
  assert (Hmul : Double.mul (Double.Finite (Qmax min 1))
                   (Double.pow (Double.Finite factor) i)
                 = Double.Finite (Qred (Qmax min 1 * factor ^ Z.of_nat i))).
  { destruct i as [|i].
    - cbn [Double.pow Double.mul]. by apply roundTiesToEven_representable.
    - cbn [Double.pow]. rewrite (roundTiesToEven_representable _ Hp).
      cbn [Double.mul].
      assert (Heq : Qmax min 1 * Qred (factor ^ Z.of_nat (S i))
                    == Qmax min 1 * factor ^ Z.of_nat (S i)).
      { by rewrite Qred_correct. }
      rewrite roundTiesToEven_representable.
      + by rewrite (Qred_complete _ _ Heq).
      + apply (representable_comp (Qmax min 1 * factor ^ Z.of_nat (S i))); [|done].
        by symmetry. }
  rewrite Hmul. cbn [Double.Math_round].
  assert (Hfl : Qfloor (Qred (Qmax min 1 * factor ^ Z.of_nat i) + (1 # 2))
                = Qfloor (Qmax min 1 * factor ^ Z.of_nat i + (1 # 2))).
  { apply Qfloor_comp. by rewrite Qred_correct. }
  rewrite Hfl. by destruct max.
Qed.

(** On such inputs the loop over exact numbers and the loop on binary64
    numbers return the same schedule. *)
Lemma generateTimeouts_exact (retries : nat) (min : Q) (max : JsNumber)
    (factor : Q) :
  (forall i, (i < retries)%nat ->
     Double.representable (factor ^ Z.of_nat i)
     /\ Double.representable (Qmax min 1 * factor ^ Z.of_nat i)) ->
  Double.generateTimeouts retries (Double.Finite min) (Double.ofNum max)
    (Double.Finite factor)
  = map Double.Finite (generateTimeouts retries min max factor).
Proof.
  intros H. apply list_eq. intros i.
  destruct (decide (i < retries)%nat) as [Hi|Hi].
  - rewrite Double_generateTimeouts_lookup, list_lookup_fmap by done.
    rewrite generateTimeouts_lookup by done. cbn [fmap option_fmap option_map].
    destruct (H i Hi) as [Hp Hm].
    rewrite Double_loop_delay_exact by done.
    by do 2 f_equal.
  - rewrite !lookup_ge_None_2; [done| |].
    + rewrite length_map, generateTimeouts_length. lia.
    + rewrite Double_generateTimeouts_length. lia.
Qed.

(** The defaults of [retry] are such inputs: the engine's schedule is the
    one the program computes. *)
Example scheduleOf_defaults :
  Double.generateTimeouts 3 (Double.Finite 1000) Double.PosInfinity (Double.Finite 2)
  = map Double.Finite (scheduleOf noOptions).
Proof. vm_compute. reflexivity. Qed.

(** * The claims of the specification *)

(** ** Schedule generator *)








(** ** Representative failure *)

(** C3.  The message [constructor] names a member every object inherits, so
    [counts[message]] is a function, the count becomes a piece of text and
    [count >= mainErrorCount] is false: the accumulator is not empty, yet
    [mainError] returns [null]; and a failure that occurs three times loses
    to one that occurs once. *)
Theorem mainError_inherited_name :
  mainError [newError (ByCaller 0) "constructor"] = None
  /\ mainError [newError (ByCaller 0) "toString"; newError (ByCaller 1) "boom";
                newError (ByCaller 2) "toString"; newError (ByCaller 3) "toString"]
     = Some (newError (ByCaller 1) "boom").
Proof. split; vm_compute; reflexivity. Qed.

(** X1.  For every accumulator, [mainError] returns the failure that the scan
    with the non-strict update rule selects among the failures it counts,
    and [null] exactly when it counts none; when no message is an inherited
    name, every failure is counted, and [null] means the accumulator is
    empty. *)
Theorem mainError_selects (l : list JsError) :
  match mainError l with
  | Some e => exists i, representative l i e
  | None => Forall (fun e => inherited (message e)) l
  end
  /\ (Forall (fun e => ~ inherited (message e)) l ->
      (mainError l = None <-> l = [])).
Proof.
  split; [apply mainError_scanned|].
  intros Hl. split.
  - intros Hnone. pose proof (mainError_scanned l) as H. rewrite Hnone in H.
    destruct l as [|e l]; [done|].
    apply Forall_inv in H. apply Forall_inv in Hl. done.
  - by intros ->.
Qed.

Lemma mainError_selects_witness :
  (exists i, representative
     [newError (ByCaller 0) "a"; newError (ByCaller 1) "b"] i
     (newError (ByCaller 1) "b"))
  /\ mainError [newError (ByCaller 0) "a"; newError (ByCaller 1) "b"] <> None.
Proof.
  pose proof (mainError_selects
                [newError (ByCaller 0) "a"; newError (ByCaller 1) "b"]) as [H1 H2].
  split.
  - exact H1.
  - intros Hn. apply H2 in Hn; [discriminate|].
    constructor; [|constructor; [|constructor]];
      apply counted_by_computation; vm_compute; reflexivity.
Defined.

(** ** Sessions *)

Section Sessions.

Variable input : RetryInput.
Variable opts : Opts.
Variable clock : Clock.
Variable maxRetryTime : option Q.

#[local] Abbreviation fn' := (Executor.fn input opts clock maxRetryTime).
#[local] Abbreviation run' := (Executor.run input opts clock maxRetryTime).
#[local] Abbreviation attemptErr' := (attemptErrorFor (opts_retries opts)).

Lemma transition_first_event st n step st' evs :
  transition input opts clock maxRetryTime st n (step, st', evs) ->
  exists tr, evs = Invoked n :: tr.
Proof. intros T. inversion T; subst; by eexists. Qed.

Lemma run_first_event fuel st :
  exists tr, trace (run' (S fuel) st) = Invoked (attempts st) :: tr.
Proof.
  pose proof (fn_transition input opts clock maxRetryTime st (attempts st)) as T.
  destruct (fn' st (attempts st)) as [[[s| |] st'] evs] eqn:Hfn;
    destruct (transition_first_event _ _ _ _ _ T) as [tr ->].
  - rewrite (run_settle _ _ _ _ _ _ _ _ _ Hfn). by eexists.
  - rewrite (run_scheduled _ _ _ _ _ _ _ _ Hfn). by eexists.
  - rewrite (run_unsettle _ _ _ _ _ _ _ _ Hfn). by eexists.
Qed.

(** When a call of the observer fails, the session ends there: the promise
    is rejected with the observer's failure, the call is the last event, and
    the accumulator holds the failures of the earlier attempts only. *)
Lemma run_observer_failed fuel st a v :
  a ∈ observations (trace (run' fuel st)) ->
  opts_onFailedAttempt opts a = Some v ->
  settled (run' fuel st) = Some (Rejected v)
  /\ last (trace (run' fuel st)) = Some (Observed a)
  /\ (attempts st <= AttemptError.attemptNumber a)%nat
  /\ errors (final (run' fuel st))
     = errors st
       ++ omap (failureAt input)
            (seq (attempts st) (AttemptError.attemptNumber a - attempts st)).
Proof.
  revert st. induction fuel as [|fuel IH]; intros st.
  { simpl. by intros ?%elem_of_nil. }
  pose proof (fn_transition input opts clock maxRetryTime st (attempts st)) as T.
  destruct (fn' st (attempts st)) as [[[s| |] st'] evs] eqn:Hfn.
  - rewrite (run_settle _ _ _ _ _ _ _ _ _ Hfn). simpl.
    destruct (transition_events _ _ _ _ _ _ _ _ _ T) as [_ Hobs].
    rewrite Hobs. intros Hin Hv.
    destruct (failureAt input (attempts st)) as [err|] eqn:Hf;
      [|by apply elem_of_nil in Hin].
    apply list_elem_of_singleton in Hin. subst a.
    apply failureAt_Some in Hf as [Hi Hc].
    inversion T; subst;
      repeat match goal with
        | H1 : input ?n = _, H2 : input ?n = _ |- _ =>
            rewrite H1 in H2; injection H2 as H2; subst
        end; try congruence.
    simpl. rewrite Nat.sub_diag. simpl. rewrite app_nil_r.
    repeat split; [congruence|lia].
  - rewrite (run_scheduled _ _ _ _ _ _ _ _ Hfn). simpl.
    destruct (transition_events _ _ _ _ _ _ _ _ _ T) as [_ Hobs].
    destruct (transition_scheduled _ _ _ _ _ _ _ _ T)
      as (err & t & Hf & Ht & Ha & _ & He & _).
    rewrite observations_app, Hobs, Hf.
    intros [Hin|Hin]%elem_of_app Hv.
    + apply list_elem_of_singleton in Hin. subst a.
      apply failureAt_Some in Hf as [Hi Hc].
      inversion T; subst.
      repeat match goal with
        | H1 : input ?n = _, H2 : input ?n = _ |- _ =>
            rewrite H1 in H2; injection H2 as H2; subst
        end. congruence.
    + destruct (IH _ Hin Hv) as (Hs & Hl & Hle & Herr). simpl in Hle, Herr.
      split; [done|]. split.
      { rewrite last_app, Hl. done. }
      split; [lia|]. rewrite Herr, Ha, He, <- app_assoc. f_equal.
      replace (AttemptError.attemptNumber a - attempts st)%nat
        with (S (AttemptError.attemptNumber a - S (attempts st))) by lia.
      simpl. by rewrite Hf.
  - rewrite (run_unsettle _ _ _ _ _ _ _ _ Hfn). simpl.
    destruct (transition_unsettled _ _ _ _ _ _ _ _ T) as (_ & -> & _).
    by intros ?%elem_of_nil.
Qed.

End Sessions.

Lemma gtb_true (a : Q) (b : JsNumber) : ~ Num.le a b -> gtb a b = true.
Proof.
  unfold gtb, Num.le. destruct b as [m|]; [|done].
  intros H. apply negb_true_iff, not_true_is_false. by rewrite Qle_bool_iff.
Qed.

Lemma gtb_false (a : Q) (b : JsNumber) : Num.le a b -> gtb a b = false.
Proof.
  unfold gtb, Num.le. destruct b as [m|]; [|done].
  intros H. apply negb_false_iff. by rewrite Qle_bool_iff.
Qed.

Lemma Num_le_dec (a : Q) (b : JsNumber) : Num.le a b \/ ~ Num.le a b.
Proof.
  unfold Num.le. destruct b as [m|]; [|by left].
  destruct (Qlt_le_dec m a) as [H|H]; [right|by left].
  by apply Qlt_not_le.
Qed.

(** With invalid bounds the executor throws before anything else happens. *)
Lemma session_invalid input options clock :
  ~ Num.le (opts_minTimeout (mergeOptions options))
      (opts_maxTimeout (mergeOptions options)) ->
  session input options clock
  = {| state := Some (Rejected (JError configError)); events := []; vars := None |}.
Proof.
  intros H. unfold session, executor. by rewrite (gtb_true _ _ H).
Qed.

(** With valid bounds the session is the run from the first state, with one
    call of [fn] more than the schedule has entries. *)
Lemma session_valid input options clock :
  Num.le (opts_minTimeout (mergeOptions options))
    (opts_maxTimeout (mergeOptions options)) ->
  session input options clock
  = let r := Executor.run input (mergeOptions options) clock
               (last (scheduleOf options)) (S (length (scheduleOf options)))
               (firstState options clock) in
    {| state := settled r; events := trace r; vars := Some (final r) |}.
Proof.
  intros H. unfold session, executor. by rewrite (gtb_false _ _ H).
Qed.

Lemma scheduleOf_length options :
  length (scheduleOf options) = opts_retries (mergeOptions options).
Proof. apply generateTimeouts_length. Qed.

(** ** Failure classification *)

Lemma classify_abort err :
  class err = AbortErrorClass ->
  classify err = StopWith (rejectionOf (originalError err) JUndefined).
Proof. intros H. unfold classify. by rewrite H. Qed.

Lemma classify_type_error err :
  class err = TypeErrorClass -> ~ knownTransient (message err) ->
  classify err = StopWith (JError err).
Proof. intros H Hk. unfold classify. rewrite H. by rewrite decide_False. Qed.

Lemma classify_other err :
  (class err = TypeErrorClass /\ knownTransient (message err))
  \/ class err = BaseErrorClass \/ class err = OtherErrorClass ->
  classify err = Retryable.
Proof.
  unfold classify. intros [[-> Hk]|[->| ->]]; [|done..]. by rewrite decide_True.
Qed.

(** The wrapper [new AbortError(...)] builds carries the original failure. *)
Lemma AbortError_wraps addr addr' arg :
  class (AbortError addr addr' arg) = AbortErrorClass
  /\ originalError (AbortError addr addr' arg)
     = Some match arg with
            | inr e => e
            | inl msg => newError (ByCaller addr') msg
            end.
Proof. by destruct arg. Qed.

(** An error object is never its own [originalError]. *)
Lemma originalError_neq :
  forall err e : JsError, originalError err = Some e -> e <> err.
Proof.
  fix IH 1. intros [l c n m [o|]] e H; simpl in H; [|discriminate H].
  injection H as <-. intros Heq.
  apply (IH o o); [|reflexivity].
  rewrite Heq at 1. reflexivity.
Qed.

(** C2.  When an attempt ends in an error object: an [AbortError] ends the
    session at once, rejected with the failure [e] it wraps as
    [originalError], which is another object than the wrapper (and with
    [undefined] if the property is absent); a [TypeError] whose message is
    not one of the four transient network messages ends it at once, rejected
    with that very failure; in both cases nothing is observed or scheduled
    and the schedule is emptied.  Every other error is retryable: the
    observer is called with its [AttemptError] and, when the observer
    completes, the budget is not used up and the schedule has an entry left,
    a timer with that delay is armed and the next attempt follows. *)
Theorem classification_decides (input : RetryInput) (opts : Opts) (clock : Clock)
    (maxRetryTime : option Q) (st : State) (err : JsError) (fuel : nat) :
  input (attempts st) = Raises (JError err) ->
  (class err = AbortErrorClass ->
   (forall e, originalError err = Some e ->
      e <> err
      /\ Executor.run input opts clock maxRetryTime (S fuel) st
         = {| settled := Some (Rejected (JError e));
              final := set_timeouts st [];
              trace := Invoked (attempts st) :: cleared st |})
   /\ (originalError err = None ->
       Executor.run input opts clock maxRetryTime (S fuel) st
       = {| settled := Some (Rejected JUndefined);
            final := set_timeouts st [];
            trace := Invoked (attempts st) :: cleared st |}))
  /\ (class err = TypeErrorClass -> ~ knownTransient (message err) ->
      Executor.run input opts clock maxRetryTime (S fuel) st
      = {| settled := Some (Rejected (JError err));
           final := set_timeouts st [];
           trace := Invoked (attempts st) :: cleared st |})
  /\ ((class err = TypeErrorClass /\ knownTransient (message err))
      \/ class err = BaseErrorClass \/ class err = OtherErrorClass ->
      (exists tr,
         trace (Executor.run input opts clock maxRetryTime (S fuel) st)
         = Invoked (attempts st)
             :: Observed (attemptErrorFor (opts_retries opts) err (attempts st))
             :: tr)
      /\ (forall timeout rest,
            opts_onFailedAttempt opts
              (attemptErrorFor (opts_retries opts) err (attempts st)) = None ->
            budgetExpired (clock (attempts st)) (operationStart st) maxRetryTime
            = false ->
            timeouts st = timeout :: rest ->
            exists tr,
              trace (Executor.run input opts clock maxRetryTime (S (S fuel)) st)
              = [Invoked (attempts st);
                 Observed (attemptErrorFor (opts_retries opts) err (attempts st));
                 TimerSet (attempts st) timeout;
                 Invoked (S (attempts st))] ++ tr)).
Proof.
  intros Hin. split; [|split].
  - intros Hc. split.
    + intros e He. split; [by apply originalError_neq|].
      apply run_settle. eapply fn_fatal; [done|].
      rewrite (classify_abort _ Hc), He. done.
    + intros He. apply run_settle. eapply fn_fatal; [done|].
      rewrite (classify_abort _ Hc), He. done.
  - intros Hc Hk. apply run_settle. eapply fn_fatal; [done|by apply classify_type_error].
  - intros Hc. apply classify_other in Hc. split.
    + destruct (opts_onFailedAttempt opts
                  (attemptErrorFor (opts_retries opts) err (attempts st)))
        as [v|] eqn:Ho.
      { erewrite run_settle by by apply fn_observer_failed. by eexists. }
      destruct (budgetExpired (clock (attempts st)) (operationStart st)
                  maxRetryTime) eqn:Hb.
      { erewrite run_settle by by apply fn_budget_expired. by eexists. }
      destruct (timeouts st) as [|timeout rest] eqn:Ht.
      { erewrite run_settle by by apply fn_schedule_empty. by eexists. }
      erewrite run_scheduled by by apply fn_retrying. by eexists.
    + intros timeout rest Ho Hb Ht.
      erewrite run_scheduled by by apply fn_retrying.
      cbv zeta. cbn [trace].
      match goal with
      | |- context [Executor.run _ _ _ _ (S fuel) ?s] =>
          destruct (run_first_event input opts clock maxRetryTime fuel s) as [tr ->]
      end.
      by exists tr.
Qed.

Lemma classification_decides_witness :
  (fixtureError <> AbortError 7 8 (inr fixtureError)
   /\ Executor.run (alwaysFails (AbortError 7 8 (inr fixtureError)))
        (mergeOptions noOptions) testClock (Some 4000) 1
        (firstState noOptions testClock)
      = {| settled := Some (Rejected (JError fixtureError));
           final := set_timeouts (firstState noOptions testClock) [];
           trace := [Invoked 1] |})
  /\ Executor.run (alwaysFails (newTypeError (ByCaller 0) "type-error-fixture"))
       (mergeOptions noOptions) testClock (Some 4000) 1
       (firstState noOptions testClock)
     = {| settled := Some (Rejected (JError (newTypeError (ByCaller 0) "type-error-fixture")));
          final := set_timeouts (firstState noOptions testClock) [];
          trace := [Invoked 1] |}
  /\ exists tr,
       trace (Executor.run (alwaysFails fixtureError) (mergeOptions (withRetries 5))
                testClock (Some 16000) 2 (firstState (withRetries 5) testClock))
       = [Invoked 1; Observed (attemptErrorFor 5 fixtureError 1); TimerSet 1 1000;
          Invoked 2] ++ tr.
Proof.
  split; [|split].
  - destruct (classification_decides
                (alwaysFails (AbortError 7 8 (inr fixtureError)))
                (mergeOptions noOptions) testClock (Some 4000)
                (firstState noOptions testClock)
                (AbortError 7 8 (inr fixtureError)) 0 eq_refl)
      as (H & _ & _).
    destruct (H eq_refl) as [H' _]. exact (H' fixtureError eq_refl).
  - destruct (classification_decides
                (alwaysFails (newTypeError (ByCaller 0) "type-error-fixture"))
                (mergeOptions noOptions) testClock (Some 4000)
                (firstState noOptions testClock)
                (newTypeError (ByCaller 0) "type-error-fixture") 0 eq_refl)
      as (_ & H & _).
    apply H; [reflexivity|].
    intros [H'|[H'|[H'|H']]]; discriminate H'.
  - destruct (classification_decides (alwaysFails fixtureError)
                (mergeOptions (withRetries 5)) testClock (Some 16000)
                (firstState (withRetries 5) testClock) fixtureError 0 eq_refl)
      as (_ & _ & H).
    destruct (H (or_intror (or_introl eq_refl))) as [_ H'].
    apply (H' 1000 [2000; 4000; 8000; 16000]); reflexivity.
Defined.

(** ** Failure of the observer *)

(** C8.  When a call of the observer raises a failure, the promise is
    rejected with exactly that failure, that call is the last thing the
    session does (no further attempt, no timer), and the accumulator holds
    only the failures of the attempts before it: neither the failure that
    was being observed nor the observer's own. *)
Theorem observer_failure_ends_session (input : RetryInput) (options : RetryOptions)
    (clock : Clock) (a : AttemptError.t) (v : JsValue) :
  a ∈ observations (events (session input options clock)) ->
  opts_onFailedAttempt (mergeOptions options) a = Some v ->
  state (session input options clock) = Some (Rejected v)
  /\ last (events (session input options clock)) = Some (Observed a)
  /\ exists st,
       vars (session input options clock) = Some st
       /\ errors st
          = omap (failureAt input) (seq 1 (AttemptError.attemptNumber a - 1)).
Proof.
  destruct (Num_le_dec (opts_minTimeout (mergeOptions options))
              (opts_maxTimeout (mergeOptions options))) as [Hle|Hgt].
  - rewrite (session_valid _ _ _ Hle). cbv zeta. cbn [state events vars].
    intros Hin Hv.
    destruct (run_observer_failed _ _ _ _ _ _ _ _ Hin Hv) as (Hs & Hl & _ & He).
    split; [done|]. split; [done|]. eexists. split; [reflexivity|]. exact He.
  - rewrite (session_invalid _ _ _ Hgt). simpl. by intros ?%elem_of_nil.
Qed.

Lemma observer_failure_ends_session_witness :
  state (session (alwaysFails fixtureError) throwingObserver testClock)
  = Some (Rejected (JError observerError))
  /\ last (events (session (alwaysFails fixtureError) throwingObserver testClock))
     = Some (Observed (attemptErrorFor 3 fixtureError 1))
  /\ exists st,
       vars (session (alwaysFails fixtureError) throwingObserver testClock) = Some st
       /\ errors st = [].
Proof.
  apply (observer_failure_ends_session (alwaysFails fixtureError) throwingObserver
           testClock (attemptErrorFor 3 fixtureError 1) (JError observerError)).
  - vm_compute. apply list_elem_of_singleton. reflexivity.
  - reflexivity.
Defined.

(** ** What the observer receives *)

Lemma decorateErrorWithCounts_agrees (retries : nat) (err : JsError) (n : nat) :
  Legacy.attemptNumber (Legacy.decorateErrorWithCounts err n retries)
  = AttemptError.attemptNumber (attemptErrorFor retries err n)
  /\ Legacy.retriesLeft (Legacy.decorateErrorWithCounts err n retries)
     = AttemptError.retriesLeft (attemptErrorFor retries err n)
  /\ message (Legacy.error (Legacy.decorateErrorWithCounts err n retries))
     = AttemptError.message (attemptErrorFor retries err n).
Proof. done. Qed.

(** C7.  The [i]-th value handed to the observer (counting from 0) has the
    name [AttemptError], the message of the retryable failure attempt
    [i + 1] ended in, [attemptNumber = i + 1] and
    [retriesLeft = retries - (attemptNumber - 1)], where [retries] is the
    caller's option, or 3 when the caller gave none; that number is not
    negative and is lower at every later call.  Every attempt that ends in a
    retryable failure is reported in this way, and it is the caller's
    observer that is told: when it throws for one of these values, the
    promise is rejected with what it threw and that call is the last thing
    the session does. *)
Theorem observer_receives_attempt_error (input : RetryInput)
    (options : RetryOptions) (clock : Clock) :
  (forall (i : nat) (a : AttemptError.t),
     observations (events (session input options clock)) !! i = Some a ->
     AttemptError.name a = "AttemptError"
     /\ AttemptError.attemptNumber a = S i
     /\ (exists err, input (S i) = Raises (JError err)
                     /\ classify err = Retryable
                     /\ AttemptError.message a = message err)
     /\ AttemptError.retriesLeft a
        = (Z.of_nat (default 3%nat (retries options))
           - (Z.of_nat (AttemptError.attemptNumber a) - 1))%Z
     /\ (0 <= AttemptError.retriesLeft a)%Z
     /\ (forall (j : nat) (b : AttemptError.t),
           (i < j)%nat ->
           observations (events (session input options clock)) !! j = Some b ->
           (AttemptError.retriesLeft b < AttemptError.retriesLeft a)%Z))
  /\ (forall (n : nat) (err : JsError),
        n ∈ invocations (events (session input options clock)) ->
        input n = Raises (JError err) ->
        classify err = Retryable ->
        attemptErrorFor (default 3%nat (retries options)) err n
        ∈ observations (events (session input options clock)))
  /\ (forall (obs : Observer) (a : AttemptError.t) (v : JsValue),
        onFailedAttempt options = Some obs ->
        a ∈ observations (events (session input options clock)) ->
        obs a = Some v ->
        state (session input options clock) = Some (Rejected v)
        /\ last (events (session input options clock)) = Some (Observed a)).
Proof.
  change (default 3%nat (retries options)) with (opts_retries (mergeOptions options)).
  destruct (Num_le_dec (opts_minTimeout (mergeOptions options))
              (opts_maxTimeout (mergeOptions options))) as [Hle|Hgt].
  2: { rewrite (session_invalid _ _ _ Hgt). cbn [events]. split; [|split].
       - intros i a H. done.
       - intros n err H. by apply elem_of_nil in H.
       - intros obs a v _ H. by apply elem_of_nil in H. }
  rewrite (session_valid _ _ _ Hle). cbv zeta. cbn [events state].
  assert (Hobs : forall i a,
            observations
              (trace (Executor.run input (mergeOptions options) clock
                        (last (scheduleOf options)) (S (length (scheduleOf options)))
                        (firstState options clock))) !! i = Some a ->
            (i <= opts_retries (mergeOptions options))%nat
            /\ exists err, failureAt input (S i) = Some err
                           /\ a = attemptErrorFor (opts_retries (mergeOptions options))
                                    err (S i)).
  { intros i a H. apply run_observations in H. cbn [attempts timeouts firstState] in H.
    by rewrite scheduleOf_length in H. }
  split; [|split].
  - intros i a H. destruct (Hobs _ _ H) as (Hi & err & Hf & ->).
    apply failureAt_Some in Hf as [Hin Hc].
    unfold attemptErrorFor.
    cbn [AttemptError.name AttemptError.message AttemptError.attemptNumber
         AttemptError.retriesLeft].
    split; [done|]. split; [done|]. split; [by exists err|].
    split; [done|]. split; [lia|].
    intros j b Hij Hb. destruct (Hobs _ _ Hb) as (Hj & err' & _ & ->).
    unfold attemptErrorFor. cbn [AttemptError.retriesLeft]. lia.
  - intros n err Hn Hin Hc. apply run_observes; [done|].
    apply failureAt_Some. done.
  - intros obs a v Hobs' Hin Hv.
    assert (Ho : opts_onFailedAttempt (mergeOptions options) a = Some v).
    { unfold mergeOptions. cbn [opts_onFailedAttempt]. rewrite Hobs'. exact Hv. }
    destruct (run_observer_failed _ _ _ _ _ _ _ _ Hin Ho) as (Hs & Hl & _).
    done.
Qed.

Lemma observer_receives_attempt_error_witness :
  AttemptError.name (attemptErrorFor 5 fixtureError 2) = "AttemptError"
  /\ AttemptError.attemptNumber (attemptErrorFor 5 fixtureError 2) = 2%nat
  /\ AttemptError.retriesLeft (attemptErrorFor 5 fixtureError 2) = 4%Z
  /\ attemptErrorFor 5 fixtureError 1
     ∈ observations (events (session (alwaysFails fixtureError)
                               (observedRetries 5 throwsAtSecond) testClock))
  /\ state (session (alwaysFails fixtureError) (observedRetries 5 throwsAtSecond)
              testClock)
     = Some (Rejected (JError observerError))
  /\ last (events (session (alwaysFails fixtureError)
                     (observedRetries 5 throwsAtSecond) testClock))
     = Some (Observed (attemptErrorFor 5 fixtureError 2)).
Proof.
  destruct (observer_receives_attempt_error (alwaysFails fixtureError)
              (observedRetries 5 throwsAtSecond) testClock) as (H1 & H2 & H3).
  destruct (H1 1%nat (attemptErrorFor 5 fixtureError 2) eq_refl)
    as (Hname & Hnum & _ & Hleft & _).
  split; [exact Hname|]. split; [exact Hnum|]. split; [exact Hleft|].
  split.
  - apply H2; [|reflexivity|reflexivity].
    vm_compute. apply list_elem_of_here.
  - apply (H3 throwsAtSecond (attemptErrorFor 5 fixtureError 2)
             (JError observerError)); [reflexivity| |reflexivity].
    vm_compute. apply list_elem_of_further, list_elem_of_here.
Defined.

(** ** Invalid bounds *)

(** C6, as stated, fails: with [minTimeout = 2000 > maxTimeout = 1000] the
    call of [retry] does not throw; it returns a promise, and that promise is
    rejected. *)
Lemma config_failure_is_not_thrown :
  ~ thrown_synchronously (alwaysFails fixtureError) invalidBounds testClock
  /\ retry (alwaysFails fixtureError) invalidBounds testClock
     = Normal {| state := Some (Rejected (JError configError));
                 events := []; vars := None |}.
Proof. split; [by intros [v Hv]|reflexivity]. Qed.

(** C6, amended.  When [minTimeout > maxTimeout] the configuration failure
    is raised inside the promise executor before any attempt: [retry]
    returns a promise that is rejected with it, and the operation is never
    called. *)
Theorem config_failure_rejects (input : RetryInput) (options : RetryOptions)
    (clock : Clock) :
  ~ Num.le (opts_minTimeout (mergeOptions options))
      (opts_maxTimeout (mergeOptions options)) ->
  retry input options clock
  = Normal {| state := Some (Rejected (JError configError));
              events := []; vars := None |}
  /\ message configError = "minTimeout must be less than maxTimeout"
  /\ invocations (events (session input options clock)) = [].
Proof.
  intros H. unfold retry. fold (session input options clock).
  by rewrite (session_invalid _ _ _ H).
Qed.

Lemma config_failure_rejects_witness :
  retry (alwaysFails fixtureError) invalidBounds testClock
  = Normal {| state := Some (Rejected (JError configError));
              events := []; vars := None |}.
Proof.
  apply (config_failure_rejects (alwaysFails fixtureError) invalidBounds testClock).
  intros H. by vm_compute in H.
Defined.

(** ** No retries *)

(** C5, as stated, fails: for [retries = 0] the comparison of the elapsed
    time with the missing last entry is false, and the session of an
    operation that fails does not take the timeout path: the accumulator
    holds the failure alone, with no marker in front. *)
Lemma empty_schedule_is_not_expired :
  budgetExpired 7160 0 (last (scheduleOf (withRetries 0))) = false
  /\ ~ took_timeout_path (session (alwaysFails fixtureError) (withRetries 0) testClock)
  /\ vars (session (alwaysFails fixtureError) (withRetries 0) testClock)
     = Some {| timeouts := []; errors := [fixtureError]; operationStart := 0;
               attempts := 1; timeoutId := None |}.
Proof.
  split; [reflexivity|]. split; [|reflexivity].
  intros (st & Hst & Hhead). vm_compute in Hst. injection Hst as <-.
  discriminate Hhead.
Qed.

(** C5, amended.  With [retries = 0] (and valid bounds) the schedule is
    empty; the operation is called exactly once and no timer is armed; the
    elapsed-time comparison is false whatever the clock reads, so a first
    retryable failure that the observer lets through ends the session on the
    empty-schedule path: the accumulator holds that failure alone and the
    promise is rejected with its representative. *)
Theorem no_retries (input : RetryInput) (options : RetryOptions) (clock : Clock) :
  retries options = Some 0%nat ->
  Num.le (opts_minTimeout (mergeOptions options))
    (opts_maxTimeout (mergeOptions options)) ->
  scheduleOf options = []
  /\ invocations (events (session input options clock)) = [1%nat]
  /\ timersSet (events (session input options clock)) = []
  /\ (forall currentTime operationStart,
        budgetExpired currentTime operationStart (last (scheduleOf options)) = false)
  /\ (forall err,
        input 1%nat = Raises (JError err) ->
        classify err = Retryable ->
        opts_onFailedAttempt (mergeOptions options)
          (attemptErrorFor 0 err 1) = None ->
        state (session input options clock)
        = Some (Rejected (rejectionOf (mainError [err]) JNull))
        /\ exists st, vars (session input options clock) = Some st
                      /\ errors st = [err]).
Proof.
  intros Hr Hle.
  assert (Hret : opts_retries (mergeOptions options) = 0%nat).
  { unfold mergeOptions. simpl. by rewrite Hr. }
  assert (Hs : scheduleOf options = []).
  { unfold scheduleOf. by rewrite Hret. }
  split; [done|].
  rewrite (session_valid _ _ _ Hle). cbv zeta. cbn [state events vars].
  rewrite Hs. cbn [length last].
  assert (Hfirst : firstState options clock
                   = {| timeouts := []; errors := []; operationStart := clock 0%nat;
                        attempts := 1; timeoutId := None |}).
  { unfold firstState. by rewrite Hs. }
  rewrite Hfirst.
  split; [|split; [|split]].
  - pose proof (fn_transition input (mergeOptions options) clock None
                  {| timeouts := []; errors := []; operationStart := clock 0%nat;
                     attempts := 1; timeoutId := None |} 1) as T.
    cbn [Executor.run attempts].
    destruct (Executor.fn _ _ _ _ _ _) as [[[s| |] st'] evs].
    + cbn [trace]. by destruct (transition_events _ _ _ _ _ _ _ _ _ T) as [-> _].
    + by destruct (transition_scheduled _ _ _ _ _ _ _ _ T) as (? & ? & _ & ? & _).
    + cbn [trace]. by destruct (transition_events _ _ _ _ _ _ _ _ _ T) as [-> _].
  - pose proof (run_timers input (mergeOptions options) clock None 1
                  {| timeouts := []; errors := []; operationStart := clock 0%nat;
                     attempts := 1; timeoutId := None |}) as [Ht _].
    cbn [timeouts] in Ht. by rewrite take_nil in Ht.
  - done.
  - intros err Hin Hc Ho.
    erewrite run_settle.
    2: { apply fn_schedule_empty; cbn [attempts timeouts]; rewrite ?Hret; done. }
    cbn [settled final errors set_errors]. split; [done|]. by eexists.
Qed.

Lemma no_retries_witness :
  state (session (alwaysFails fixtureError) (withRetries 0) testClock)
  = Some (Rejected (JError fixtureError))
  /\ invocations (events (session (alwaysFails fixtureError) (withRetries 0) testClock))
     = [1%nat].
Proof.
  destruct (no_retries (alwaysFails fixtureError) (withRetries 0) testClock eq_refl I)
    as (_ & Hinv & _ & _ & H).
  split; [|exact Hinv].
  destruct (H fixtureError eq_refl eq_refl eq_refl) as [Hs _]. exact Hs.
Defined.

(** ** Exhaustion *)

Lemma runningCount_le_tally (l : list JsError) (j : nat) (e : JsError) :
  l !! j = Some e -> (runningCount l j <= tally (message e) l)%nat.
Proof.
  intros H. unfold runningCount. rewrite H.
  rewrite <- (take_drop (S j) l) at 2. rewrite tally_app. lia.
Qed.

Lemma runningCount_first (l : list JsError) (e : JsError) :
  l !! 0%nat = Some e -> runningCount l 0 = 1%nat.
Proof.
  intros H. unfold runningCount. rewrite H.
  destruct l as [|e' l]; [done|]. injection H as ->.
  simpl. rewrite take_0, tally_one. by rewrite decide_True.
Qed.


(** With the marker in front, the representative is still one of the
    failures behind it whenever the last of them is counted. *)
Lemma mainError_behind_marker (errs : list JsError) (err : JsError) :
  ~ inherited (message err) ->
  exists i e, mainError (timeoutMarker :: errs ++ [err]) = Some e
              /\ (errs ++ [err]) !! i = Some e.
Proof.
  intros Hn. pose proof (mainError_scanned (timeoutMarker :: errs ++ [err])) as H.
  assert (Hlast : (timeoutMarker :: errs ++ [err]) !! S (length errs) = Some err).
  { simpl. by apply list_lookup_middle. }
  destruct (mainError _) as [e|].
  - destruct H as (i & Hi & Hne & Hb & Ha).
    destruct i as [|i].
    + specialize (Ha _ _ (Nat.lt_0_succ _) Hlast Hn).
      rewrite (runningCount_first _ _ Hi) in Ha.
      pose proof (runningCount_pos _ _ _ Hlast). lia.
    + exists i, e. by split.
  - rewrite Forall_lookup in H. by specialize (H _ _ Hlast).
Qed.

(** The messages of the samples are not inherited names. *)
Lemma fixture_counted : ~ inherited "fixture".
Proof. apply counted_by_computation. vm_compute. reflexivity. Qed.

Section AllFail.

Variable input : RetryInput.
Variable opts : Opts.
Variable clock : Clock.
Variable maxRetryTime : option Q.
Variable fail : nat -> JsError.
Variable m : string.

Hypothesis input_fails : forall n, input n = Raises (JError (fail n)).
Hypothesis fail_retryable : forall n, classify (fail n) = Retryable.
Hypothesis fail_message : forall n, message (fail n) = m.
Hypothesis m_counted : ~ inherited m.
Hypothesis observer_completes : forall a, opts_onFailedAttempt opts a = None.


End AllFail.




(** ** The timeout marker *)

(** C4.  There is a session in which the budget is used up at a retry
    decision, the marker is put in front of the accumulator, and the promise
    is rejected with that marker: the one of an operation whose failures all
    carry the message [constructor], with the clock of the test suite. *)
Theorem marker_can_surface :
  exists (input : RetryInput) (options : RetryOptions) (clock : Clock) (n : nat)
         (maxRetryTime : Q),
    n ∈ invocations (events (session input options clock))
    /\ last (scheduleOf options) = Some maxRetryTime
    /\ maxRetryTime <= inject_Z (clock n - clock 0%nat)
    /\ budgetExpired (clock n) (clock 0%nat) (last (scheduleOf options)) = true
    /\ took_timeout_path (session input options clock)
    /\ state (session input options clock) = Some (Rejected (JError timeoutMarker)).
Proof.
  exists (alwaysFails (newError (ByCaller 1) "constructor")), (withRetries 3),
    testClock, 4%nat, 4000.
  split; [|split; [|split; [|split; [|split]]]].
  - vm_compute. do 3 apply list_elem_of_further. apply list_elem_of_here.
  - vm_compute. reflexivity.
  - by vm_compute.
  - vm_compute. reflexivity.
  - eexists. split; [vm_compute; reflexivity|reflexivity].
  - vm_compute. reflexivity.
Qed.

(** X2.  Apart from such messages the marker never surfaces: when the budget is
    used up on a failure whose message the scan counts, the promise is
    rejected with one of the operation's failures. *)
Theorem marker_is_superseded (input : RetryInput) (opts : Opts) (clock : Clock)
    (maxRetryTime : option Q) (st : State) (err : JsError) (fuel : nat) :
  input (attempts st) = Raises (JError err) ->
  classify err = Retryable ->
  opts_onFailedAttempt opts (attemptErrorFor (opts_retries opts) err (attempts st))
  = None ->
  budgetExpired (clock (attempts st)) (operationStart st) maxRetryTime = true ->
  ~ inherited (message err) ->
  exists i e,
    (errors st ++ [err]) !! i = Some e
    /\ settled (Executor.run input opts clock maxRetryTime (S fuel) st)
       = Some (Rejected (JError e))
    /\ errors (final (Executor.run input opts clock maxRetryTime (S fuel) st))
       = timeoutMarker :: errors st ++ [err].
Proof.
  intros Hin Hc Ho Hb Hn.
  erewrite run_settle by (by apply fn_budget_expired).
  cbn [settled final errors set_errors].
  destruct (mainError_behind_marker (errors st) err Hn) as (i & e & -> & Hi).
  by exists i, e.
Qed.

Lemma marker_is_superseded_witness :
  exists i e,
    ([fixtureError] ++ [fixtureError]) !! i = Some e
    /\ settled (Executor.run (alwaysFails fixtureError) (mergeOptions (withRetries 1))
                  testClock (Some 1000) 1
                  {| timeouts := []; errors := [fixtureError]; operationStart := 0;
                     attempts := 2; timeoutId := Some 1%nat |})
       = Some (Rejected (JError e))
    /\ errors (final (Executor.run (alwaysFails fixtureError)
                        (mergeOptions (withRetries 1)) testClock (Some 1000) 1
                        {| timeouts := []; errors := [fixtureError];
                           operationStart := 0; attempts := 2;
                           timeoutId := Some 1%nat |}))
       = timeoutMarker :: [fixtureError] ++ [fixtureError].
Proof.
  apply (marker_is_superseded (alwaysFails fixtureError)
           (mergeOptions (withRetries 1)) testClock (Some 1000)
           {| timeouts := []; errors := [fixtureError]; operationStart := 0;
              attempts := 2; timeoutId := Some 1%nat |} fixtureError 0).
  - reflexivity.
  - reflexivity.
  - reflexivity.
  - reflexivity.
  - exact fixture_counted.
Defined.

(** ** Every call settles *)

Lemma last_invoked (tr : list Event) (n : nat) :
  last tr = Some (Invoked n) -> n ∈ invocations tr.
Proof.
  intros H. apply last_Some in H as [tr' ->].
  rewrite invocations_app. apply elem_of_app. right. by apply list_elem_of_singleton.
Qed.

(** X3.  The promise [retry] returns stays pending exactly when some attempt
    throws a value that is not an error and that the template literal of
    [fn] cannot convert to a string (a symbol): building the message throws
    inside the [try] block's [catch], so [reject] is never reached.  That
    attempt is then the last thing that happens.  In every other case the
    promise is settled, whatever the operation, the observer and the clock
    do: the bound on the calls of [fn] that the embedding carries is never
    reached. *)
Theorem session_settles (input : RetryInput) (options : RetryOptions)
    (clock : Clock) :
  (state (session input options clock) = None
   <-> exists n v, n ∈ invocations (events (session input options clock))
                   /\ input n = Raises v
                   /\ (forall e, v <> JError e)
                   /\ toStr v = None)
  /\ (is_Some (state (session input options clock))
      \/ exists n v, last (events (session input options clock)) = Some (Invoked n)
                     /\ input n = Raises v
                     /\ (forall e, v <> JError e)
                     /\ toStr v = None).
Proof.
  destruct (Num_le_dec (opts_minTimeout (mergeOptions options))
              (opts_maxTimeout (mergeOptions options))) as [Hle|Hgt].
  - rewrite (session_valid _ _ _ Hle). cbv zeta. cbn [state events].
    destruct (run_outcome input (mergeOptions options) clock
                (last (scheduleOf options)) (S (length (scheduleOf options)))
                (firstState options clock))
      as [[Hs Hp]|[Hs (n & Hl & v & Hv & Hne & Hstr)]].
    { cbn [firstState timeouts]. lia. }
    + split; [|by left]. split.
      * intros Hn. rewrite Hn in Hs. by destruct Hs.
      * intros (n & v & Hin & Hv & Hne & Hstr). destruct (Hp n Hin). by exists v.
    + split; [|right; by exists n, v]. split; [|done].
      intros _. exists n, v. split; [|done]. by apply last_invoked.
  - rewrite (session_invalid _ _ _ Hgt). cbn [state events]. split; [|left; by eexists].
    split; [done|]. by intros (n & v & ?%elem_of_nil & _).
Qed.

(** ** The test suite, replayed

    The sessions of [tests/index.test.ts], with every attempt taking 40 ms. *)

(** [should handle retries] *)
Example test_handles_retries :
  state (session (failsTwice fixtureError (Fulfils fixture)) noOptions testClock)
  = Some (Resolved fixture)
  /\ invocations (events (session (failsTwice fixtureError (Fulfils fixture))
                            noOptions testClock))
     = [1; 2; 3]%nat.
Proof. split; vm_compute; reflexivity. Qed.

(** [should handle errors]: the third attempt throws
    [new retry.AbortError(fixtureError)]. *)
Example test_handles_abort :
  state (session (failsTwice fixtureError
                    (Raises (JError (AbortError 7 8 (inr fixtureError)))))
           noOptions testClock)
  = Some (Rejected (JError fixtureError))
  /\ invocations (events (session (failsTwice fixtureError
                                     (Raises (JError (AbortError 7 8 (inr fixtureError)))))
                            noOptions testClock))
     = [1; 2; 3]%nat.
Proof. split; vm_compute; reflexivity. Qed.

(** [should not retry on TypeError] *)
Example test_type_error_is_fatal :
  state (session (failsTwice (newTypeError (ByCaller 0) "type-error-fixture")
                    (Fulfils fixture)) noOptions testClock)
  = Some (Rejected (JError (newTypeError (ByCaller 0) "type-error-fixture")))
  /\ invocations (events (session (failsTwice (newTypeError (ByCaller 0) "type-error-fixture")
                                     (Fulfils fixture)) noOptions testClock))
     = [1%nat].
Proof. split; vm_compute; reflexivity. Qed.

(** [should retry on TypeError "Failed to fetch"] *)
Example test_network_error_is_retried :
  state (session (failsTwice (newTypeError (ByCaller 0) "Failed to fetch")
                    (Fulfils fixture)) noOptions testClock)
  = Some (Resolved fixture)
  /\ invocations (events (session (failsTwice (newTypeError (ByCaller 0) "Failed to fetch")
                                     (Fulfils fixture)) noOptions testClock))
     = [1; 2; 3]%nat.
Proof. split; vm_compute; reflexivity. Qed.

(** [should call 'onFailedAttempt' the expected number of times], with
    [retries = 5]. *)
Example test_observer_calls :
  observations (events (session (failsTwice fixtureError (Fulfils fixture))
                          (withRetries 5) testClock))
  = [AttemptError.make "AttemptError" "fixture" 1 5;
     AttemptError.make "AttemptError" "fixture" 2 4].
Proof. vm_compute. reflexivity. Qed.

(** [should allow 'onFailedAttempt' to throw] *)
Example test_observer_throws :
  state (session (alwaysFails fixtureError) throwingObserver testClock)
  = Some (Rejected (JError observerError))
  /\ invocations (events (session (alwaysFails fixtureError) throwingObserver testClock))
     = [1%nat].
Proof. split; vm_compute; reflexivity. Qed.

(** [should throw a useful error message] *)
Example test_non_error :
  state (session (fun _ => Raises (JOther "unuseful")) noOptions testClock)
  = Some (Rejected (JError
      {| loc := ByEngine; class := TypeErrorClass; name := "TypeError";
         message := "Non-error was thrown: "
                    +:+ String (Ascii.ascii_of_nat 34)
                          ("unuseful"
                           +:+ String (Ascii.ascii_of_nat 34) ". You should only throw errors.");
         originalError := None |}))
  /\ invocations (events (session (fun _ => Raises (JOther "unuseful")) noOptions
                            testClock))
     = [1%nat].
Proof. split; vm_compute; reflexivity. Qed.

(** A thrown symbol: the template literal throws inside the [catch] block,
    the promise is never settled and nothing else happens. *)
Example test_symbol_thrown :
  state (session (fun _ => Raises (JSymbol "fixture")) noOptions testClock) = None
  /\ events (session (fun _ => Raises (JSymbol "fixture")) noOptions testClock)
     = [Invoked 1].
Proof. split; vm_compute; reflexivity. Qed.

(** * Further properties of the engine *)

(** ** The session up to a given attempt *)

Section Reaching.

Variable input : RetryInput.
Variable opts : Opts.
Variable clock : Clock.
Variable maxRetryTime : option Q.

#[local] Abbreviation fn_ := (Executor.fn input opts clock maxRetryTime).
#[local] Abbreviation run_ := (Executor.run input opts clock maxRetryTime).

(** What a transition that arms a timer has decided. *)
Lemma transition_scheduled_decided st n st' evs :
  transition input opts clock maxRetryTime st n (Scheduled, st', evs) ->
  exists err,
    failureAt input n = Some err
    /\ opts_onFailedAttempt opts (attemptErrorFor (opts_retries opts) err n) = None
    /\ budgetExpired (clock (attempts st)) (operationStart st) maxRetryTime = false
    /\ timeoutId st' = Some (attempts st).
Proof.
  intros T. inversion T; subst. exists err.
  rewrite failureAt_Some. by repeat split.
Qed.

(** When attempt [n] is made, the session so far consisted of retries only:
    every earlier attempt ended in a retryable failure that the observer let
    through within the budget; those failures are in the accumulator, in
    order; the timers armed were the first delays of the schedule and the
    rest of the schedule is still to come. *)
Lemma run_reaches fuel st n :
  n ∈ invocations (trace (run_ fuel st)) ->
  exists fuel' st' pre,
    settled (run_ fuel st) = settled (run_ (S fuel') st')
    /\ final (run_ fuel st) = final (run_ (S fuel') st')
    /\ trace (run_ fuel st) = pre ++ trace (run_ (S fuel') st')
    /\ attempts st' = n
    /\ operationStart st' = operationStart st
    /\ (attempts st <= n)%nat
    /\ invocations pre = seq (attempts st) (n - attempts st)
    /\ timersSet pre = take (n - attempts st) (timeouts st)
    /\ timeouts st' = drop (n - attempts st) (timeouts st)
    /\ errors st'
       = errors st ++ omap (failureAt input) (seq (attempts st) (n - attempts st))
    /\ timeoutId st'
       = (if decide (n = attempts st) then timeoutId st else Some (n - 1)%nat)
    /\ ((length (timeouts st) < fuel)%nat -> (length (timeouts st') <= fuel')%nat).
Proof.
  revert st. induction fuel as [|fuel IH]; intros st.
  { simpl. by intros ?%elem_of_nil. }
  intros Hin.
  destruct (decide (n = attempts st)) as [->|Hne].
  { exists fuel, st, []. rewrite Nat.sub_diag. cbn [seq take omap app].
    rewrite drop_0, app_nil_r.
    repeat split; try done. lia. }
  pose proof (fn_transition input opts clock maxRetryTime st (attempts st)) as T.
  destruct (fn_ st (attempts st)) as [[[s| |] st1] evs] eqn:Hfn.
  1: { rewrite (run_settle _ _ _ _ _ _ _ _ _ Hfn) in Hin. simpl in Hin.
       destruct (transition_events _ _ _ _ _ _ _ _ _ T) as [Hinv _].
       rewrite Hinv in Hin. by apply list_elem_of_singleton in Hin. }
  2: { rewrite (run_unsettle _ _ _ _ _ _ _ _ Hfn) in Hin. simpl in Hin.
       destruct (transition_events _ _ _ _ _ _ _ _ _ T) as [Hinv _].
       rewrite Hinv in Hin. by apply list_elem_of_singleton in Hin. }
  rewrite (run_scheduled _ _ _ _ _ _ _ _ Hfn) in Hin |- *.
  cbv zeta in Hin |- *. cbn [settled final trace] in Hin |- *.
  destruct (transition_events _ _ _ _ _ _ _ _ _ T) as [Hinv _].
  destruct (transition_scheduled _ _ _ _ _ _ _ _ T)
    as (err & t & Hf & Ht & Ha & Hop & He & Htm).
  destruct (transition_scheduled_decided _ _ _ _ T) as (err' & _ & _ & _ & Hid).
  rewrite invocations_app, Hinv in Hin.
  apply elem_of_app in Hin as [Hin|Hin];
    [by apply list_elem_of_singleton in Hin|].
  destruct (IH _ Hin)
    as (fuel' & st' & pre & Hs & Hfin & Htr & Hat & Hos & Hle & Hpi & Hpt & Hts
        & Hes & Hti & Hfu).
  cbn [attempts operationStart timeouts errors timeoutId set_attempts] in *.
  rewrite Ha in *.
  exists fuel', st', (evs ++ pre).
  assert (Hd : (n - attempts st = S (n - S (attempts st)))%nat) by lia.
  rewrite Hd, Ht. cbn [seq take drop omap list_omap]. rewrite Hf.
  split; [done|]. split; [done|]. split; [by rewrite Htr, app_assoc|].
  split; [done|]. split; [congruence|]. split; [lia|].
  split; [by rewrite invocations_app, Hinv, Hpi|].
  split; [by rewrite timersSet_app, Htm, Hpt|].
  split; [done|].
  split; [by rewrite Hes, He, <- app_assoc|].
  split.
  - rewrite Hti.
    destruct (decide (n = S (attempts st))) as [->|_]; [|done].
    rewrite Hid. f_equal. lia.
  - intros Hlen. apply Hfu. simpl in Hlen. lia.
Qed.

(** A session that resolves does so with the value of the attempt it made
    last. *)
Lemma run_resolved fuel st v :
  settled (run_ fuel st) = Some (Resolved v) ->
  exists n, last (trace (run_ fuel st)) = Some (Invoked n) /\ input n = Fulfils v.
Proof.
  revert st. induction fuel as [|fuel IH]; intros st; [done|].
  pose proof (fn_transition input opts clock maxRetryTime st (attempts st)) as T.
  destruct (fn_ st (attempts st)) as [[[s| |] st1] evs] eqn:Hfn.
  - rewrite (run_settle _ _ _ _ _ _ _ _ _ Hfn). simpl. intros [= ->].
    inversion T; subst. by eexists.
  - rewrite (run_scheduled _ _ _ _ _ _ _ _ Hfn). cbv zeta. cbn [settled trace].
    intros H. destruct (IH _ H) as (n & Hl & Hn). exists n. split; [|done].
    by rewrite last_app, Hl.
  - by rewrite (run_unsettle _ _ _ _ _ _ _ _ Hfn).
Qed.

(** The accumulator never holds anything but the retryable failures of the
    attempts, in order, with at most the marker in front. *)
Lemma run_errors fuel st :
  exists k,
    (k <= length (invocations (trace (run_ fuel st))))%nat
    /\ (errors (final (run_ fuel st))
        = errors st ++ omap (failureAt input) (seq (attempts st) k)
        \/ errors (final (run_ fuel st))
           = timeoutMarker
               :: errors st ++ omap (failureAt input) (seq (attempts st) k)).
Proof.
  revert st. induction fuel as [|fuel IH]; intros st.
  { exists 0%nat. simpl. rewrite app_nil_r. split; [lia|by left]. }
  pose proof (fn_transition input opts clock maxRetryTime st (attempts st)) as T.
  destruct (fn_ st (attempts st)) as [[[s| |] st1] evs] eqn:Hfn.
  - rewrite (run_settle _ _ _ _ _ _ _ _ _ Hfn). cbn [final trace].
    destruct (transition_events _ _ _ _ _ _ _ _ _ T) as [-> _].
    inversion T; subst; cbn [errors set_timeouts set_errors].
    1-4: exists 0%nat; simpl; rewrite app_nil_r; split; [lia|by left].
    all: exists 1%nat; simpl;
      match goal with
      | Hi : input _ = Raises (JError ?e), Hc : classify ?e = Retryable |- _ =>
          rewrite (proj2 (failureAt_Some input _ e) (conj Hi Hc))
      end; split; [lia|]; first [by left|by right].
  - rewrite (run_scheduled _ _ _ _ _ _ _ _ Hfn). cbv zeta. cbn [final trace].
    destruct (transition_events _ _ _ _ _ _ _ _ _ T) as [Hinv _].
    destruct (transition_scheduled _ _ _ _ _ _ _ _ T)
      as (err & t & Hf & Ht & Ha & Hop & He & Htm).
    rewrite Ha.
    destruct (IH (set_attempts st1 (S (attempts st)))) as (k & Hk & Herr).
    cbn [attempts errors set_attempts] in Herr. rewrite He in Herr.
    exists (S k). rewrite invocations_app, Hinv. cbn [seq omap list_omap]. rewrite Hf.
    split; [simpl; lia|].
    rewrite <- !app_assoc in Herr. exact Herr.
  - rewrite (run_unsettle _ _ _ _ _ _ _ _ Hfn). cbn [final trace].
    destruct (transition_unsettled _ _ _ _ _ _ _ _ T) as (-> & -> & _).
    exists 0%nat. simpl. rewrite app_nil_r. split; [lia|by left].
Qed.

End Reaching.

(** ** Sessions, attempt by attempt *)

Lemma session_reaches input options clock n :
  n ∈ invocations (events (session input options clock)) ->
  exists fuel' st' pre,
    state (session input options clock)
    = settled (Executor.run input (mergeOptions options) clock
                 (last (scheduleOf options)) (S fuel') st')
    /\ vars (session input options clock)
       = Some (final (Executor.run input (mergeOptions options) clock
                        (last (scheduleOf options)) (S fuel') st'))
    /\ events (session input options clock)
       = pre ++ trace (Executor.run input (mergeOptions options) clock
                         (last (scheduleOf options)) (S fuel') st')
    /\ attempts st' = n
    /\ operationStart st' = clock 0%nat
    /\ (1 <= n)%nat
    /\ invocations pre = seq 1 (n - 1)
    /\ timersSet pre = take (n - 1) (scheduleOf options)
    /\ timeouts st' = drop (n - 1) (scheduleOf options)
    /\ errors st' = failuresUpTo input (n - 1)
    /\ timeoutId st' = (if decide (n = 1%nat) then None else Some (n - 1)%nat)
    /\ (length (timeouts st') <= fuel')%nat.
Proof.
  destruct (Num_le_dec (opts_minTimeout (mergeOptions options))
              (opts_maxTimeout (mergeOptions options))) as [Hle|Hgt].
  2: { rewrite (session_invalid _ _ _ Hgt). cbn [events].
       by intros ?%elem_of_nil. }
  rewrite (session_valid _ _ _ Hle). cbv zeta. cbn [state events vars].
  intros Hin. apply run_reaches in Hin.
  destruct Hin as (fuel' & st' & pre & Hs & Hf & Ht & Ha & Ho & Hn & Hi & Htm
                   & Hts & He & Hid & Hfu).
  cbn [firstState attempts operationStart timeouts errors timeoutId] in *.
  exists fuel', st', pre. rewrite Hs, Hf, Ht.
  split_and!; try done. apply Hfu. lia.
Qed.

(** A fatal failure at attempt [n], in full. *)
Lemma session_fatal input options clock n err v :
  n ∈ invocations (events (session input options clock)) ->
  input n = Raises (JError err) ->
  classify err = StopWith v ->
  state (session input options clock) = Some (Rejected v)
  /\ (exists pre,
        events (session input options clock)
        = pre ++ Invoked n
                 :: (if decide (n = 1%nat) then [] else [TimerCleared (n - 1)]))
  /\ exists st,
       vars (session input options clock) = Some st
       /\ timeouts st = []
       /\ errors st = failuresUpTo input (n - 1).
Proof.
  intros Hin Hi Hc.
  destruct (session_reaches _ _ _ _ Hin)
    as (fuel' & st' & pre & -> & -> & -> & Ha & _ & _ & _ & _ & _ & He & Hid & _).
  subst n.
  erewrite run_settle by (by eapply fn_fatal).
  cbn [settled final trace]. split; [done|]. split.
  - exists pre. unfold cleared. rewrite Hid. by destruct (decide _).
  - eexists. split; [done|]. by split.
Qed.

(** X4.  The promise is resolved only with the value an attempt produced,
    and as soon as one does: an attempt that fulfils is the last thing the
    session does, and a resolved session ended on such an attempt. *)
Theorem success_ends_session (input : RetryInput) (options : RetryOptions)
    (clock : Clock) :
  (forall n v,
     n ∈ invocations (events (session input options clock)) ->
     input n = Fulfils v ->
     state (session input options clock) = Some (Resolved v)
     /\ last (events (session input options clock)) = Some (Invoked n))
  /\ (forall v,
        state (session input options clock) = Some (Resolved v) ->
        exists n, last (events (session input options clock)) = Some (Invoked n)
                  /\ input n = Fulfils v).
Proof.
  split.
  - intros n v Hin Hi.
    destruct (session_reaches _ _ _ _ Hin)
      as (fuel' & st' & pre & -> & _ & -> & Ha & _).
    subst n. erewrite run_settle by (by apply fn_success).
    cbn [settled trace]. split; [done|]. by rewrite last_snoc.
  - intros v.
    destruct (Num_le_dec (opts_minTimeout (mergeOptions options))
                (opts_maxTimeout (mergeOptions options))) as [Hle|Hgt].
    + rewrite (session_valid _ _ _ Hle). cbv zeta. cbn [state events].
      apply run_resolved.
    + rewrite (session_invalid _ _ _ Hgt). by cbn [state].
Qed.

Lemma success_ends_session_witness :
  state (session (failsTwice fixtureError (Fulfils fixture)) noOptions testClock)
  = Some (Resolved fixture)
  /\ last (events (session (failsTwice fixtureError (Fulfils fixture)) noOptions
                     testClock))
     = Some (Invoked 3).
Proof.
  destruct (success_ends_session (failsTwice fixtureError (Fulfils fixture))
              noOptions testClock) as [H _].
  apply (H 3%nat fixture); [|reflexivity].
  vm_compute. do 2 apply list_elem_of_further. apply list_elem_of_here.
Defined.

(** X5.  An attempt that throws a value which is not an error object and
    which has a string conversion [repr] ends the session: the promise is
    rejected with a [TypeError] the engine allocates there, whose message is
    [Non-error was thrown: ] followed by [repr] between double quotes
    (character 34) and by [. You should only throw errors.]; nothing is
    observed or scheduled after that call, and the accumulator holds the
    failures of the earlier attempts only. *)
Theorem non_error_ends_session (input : RetryInput) (options : RetryOptions)
    (clock : Clock) (n : nat) (v : JsValue) (repr : string) :
  n ∈ invocations (events (session input options clock)) ->
  input n = Raises v ->
  (forall e, v <> JError e) ->
  toStr v = Some repr ->
  state (session input options clock)
  = Some (Rejected (JError
      {| loc := ByEngine; class := TypeErrorClass; name := "TypeError";
         message := "Non-error was thrown: "
                    +:+ String (Ascii.ascii_of_nat 34)
                          (repr +:+ String (Ascii.ascii_of_nat 34)
                                      ". You should only throw errors.");
         originalError := None |}))
  /\ last (events (session input options clock)) = Some (Invoked n)
  /\ exists st,
       vars (session input options clock) = Some st
       /\ errors st = failuresUpTo input (n - 1).
Proof.
  intros Hin Hi Hv Hs.
  destruct (session_reaches _ _ _ _ Hin)
    as (fuel' & st' & pre & -> & -> & -> & Ha & _ & _ & _ & _ & _ & He & _).
  subst n. erewrite run_settle by (by eapply fn_non_error).
  cbn [settled final trace]. split; [reflexivity|].
  split; [by rewrite last_snoc|by eexists].
Qed.

Lemma non_error_ends_session_witness :
  state (session (fun _ => Raises (JOther "unuseful")) noOptions testClock)
  = Some (Rejected (JError
      {| loc := ByEngine; class := TypeErrorClass; name := "TypeError";
         message := "Non-error was thrown: "
                    +:+ String (Ascii.ascii_of_nat 34)
                          ("unuseful"
                           +:+ String (Ascii.ascii_of_nat 34)
                                 ". You should only throw errors.");
         originalError := None |}))
  /\ last (events (session (fun _ => Raises (JOther "unuseful")) noOptions testClock))
     = Some (Invoked 1).
Proof.
  destruct (non_error_ends_session (fun _ => Raises (JOther "unuseful")) noOptions
              testClock 1 (JOther "unuseful") "unuseful") as (H1 & H2 & _).
  - vm_compute. apply list_elem_of_here.
  - reflexivity.
  - intros e H. discriminate H.
  - reflexivity.
  - split; [exact H1|exact H2].
Defined.

(** X6.  A fatal failure at any attempt (an [AbortError], or a [TypeError]
    that is not a network error) ends the session: the promise is rejected
    with the classifier's value, the call is followed only by the clearing
    of the timer that preceded it (if there was one), the schedule is
    emptied, and the fatal failure is not added to the accumulator. *)
Theorem fatal_failure_ends_session (input : RetryInput) (options : RetryOptions)
    (clock : Clock) (n : nat) (err : JsError) (v : JsValue) :
  n ∈ invocations (events (session input options clock)) ->
  input n = Raises (JError err) ->
  classify err = StopWith v ->
  state (session input options clock) = Some (Rejected v)
  /\ (exists pre,
        events (session input options clock)
        = pre ++ Invoked n
                 :: (if decide (n = 1%nat) then [] else [TimerCleared (n - 1)]))
  /\ exists st,
       vars (session input options clock) = Some st
       /\ timeouts st = []
       /\ errors st = failuresUpTo input (n - 1).
Proof. apply session_fatal. Qed.

Lemma fatal_failure_ends_session_witness :
  state (session (failsTwice fixtureError
                    (Raises (JError (newTypeError (ByCaller 0) "boom"))))
           noOptions testClock)
  = Some (Rejected (JError (newTypeError (ByCaller 0) "boom")))
  /\ exists st,
       vars (session (failsTwice fixtureError
                        (Raises (JError (newTypeError (ByCaller 0) "boom"))))
               noOptions testClock) = Some st
       /\ timeouts st = []
       /\ errors st = [fixtureError; fixtureError].
Proof.
  destruct (fatal_failure_ends_session
              (failsTwice fixtureError
                 (Raises (JError (newTypeError (ByCaller 0) "boom"))))
              noOptions testClock 3 (newTypeError (ByCaller 0) "boom")
              (JError (newTypeError (ByCaller 0) "boom"))) as (H1 & _ & H3).
  - vm_compute. do 2 apply list_elem_of_further. apply list_elem_of_here.
  - reflexivity.
  - reflexivity.
  - split; [exact H1|exact H3].
Defined.

(** X7.  Throwing [new AbortError(arg)] from any attempt rejects the promise
    with the failure the wrapper carries: the error object passed in, or a
    plain [Error] made from the message passed in.  The wrapper has the name
    [AbortError] and the message of what it wraps. *)
Theorem abort_surfaces_original (input : RetryInput) (options : RetryOptions)
    (clock : Clock) (n addr addr' : nat) (arg : string + JsError) :
  n ∈ invocations (events (session input options clock)) ->
  input n = Raises (JError (AbortError addr addr' arg)) ->
  state (session input options clock)
  = Some (Rejected (JError (wrappedBy addr' arg)))
  /\ message (AbortError addr addr' arg) = message (wrappedBy addr' arg)
  /\ name (AbortError addr addr' arg) = "AbortError"
  /\ (forall msg, arg = inl msg -> wrappedBy addr' arg = newError (ByCaller addr') msg)
  /\ (forall e, arg = inr e -> wrappedBy addr' arg = e).
Proof.
  intros Hin Hi.
  destruct (session_fatal _ _ _ _ _ (JError (wrappedBy addr' arg)) Hin Hi)
    as (Hs & _).
  { by destruct arg. }
  split; [done|]. split; [by destruct arg|]. split; [by destruct arg|].
  split; [by intros msg ->|by intros e ->].
Qed.

Lemma abort_surfaces_original_witness :
  state (session (failsTwice fixtureError
                    (Raises (JError (AbortError 7 8 (inl "Not Found")))))
           noOptions testClock)
  = Some (Rejected (JError (newError (ByCaller 8) "Not Found"))).
Proof.
  destruct (abort_surfaces_original
              (failsTwice fixtureError
                 (Raises (JError (AbortError 7 8 (inl "Not Found")))))
              noOptions testClock 3 7 8 (inl "Not Found")) as (H & _).
  - vm_compute. do 2 apply list_elem_of_further. apply list_elem_of_here.
  - reflexivity.
  - exact H.
Defined.

(** ** The retry decision *)

Lemma failuresUpTo_S input n err :
  failureAt input (S n) = Some err ->
  failuresUpTo input (S n) = failuresUpTo input n ++ [err].
Proof.
  intros H. unfold failuresUpTo. rewrite seq_S, omap_app. simpl. by rewrite H.
Qed.

Lemma failuresUpTo_member input n e :
  e ∈ failuresUpTo input n <->
  exists k, (1 <= k <= n)%nat /\ failureAt input k = Some e.
Proof.
  unfold failuresUpTo. rewrite list_elem_of_omap. split.
  - intros (k & Hk & He). apply elem_of_seq in Hk. exists k. split; [lia|done].
  - intros (k & Hk & He). exists k. split; [|done]. apply elem_of_seq. lia.
Qed.

(** The three ways the retry decision of attempt [n] can go, once the
    attempt has ended in a retryable failure that the observer let through. *)
Lemma session_decision input options clock n err :
  n ∈ invocations (events (session input options clock)) ->
  failureAt input n = Some err ->
  opts_onFailedAttempt (mergeOptions options)
    (attemptErrorFor (opts_retries (mergeOptions options)) err n) = None ->
  (budgetExpired (clock n) (clock 0%nat) (last (scheduleOf options)) = true
   /\ state (session input options clock)
      = Some (Rejected (rejectionOf
                          (mainError (timeoutMarker :: failuresUpTo input n)) JNull))
   /\ vars (session input options clock) <> None
   /\ (forall st, vars (session input options clock) = Some st ->
         errors st = timeoutMarker :: failuresUpTo input n)
   /\ invocations (events (session input options clock)) = seq 1 n)
  \/ (budgetExpired (clock n) (clock 0%nat) (last (scheduleOf options)) = false
      /\ (opts_retries (mergeOptions options) < n)%nat
      /\ state (session input options clock)
         = Some (Rejected (rejectionOf (mainError (failuresUpTo input n)) JNull))
      /\ vars (session input options clock) <> None
      /\ (forall st, vars (session input options clock) = Some st ->
            errors st = failuresUpTo input n)
      /\ invocations (events (session input options clock)) = seq 1 n)
  \/ (budgetExpired (clock n) (clock 0%nat) (last (scheduleOf options)) = false
      /\ (n <= opts_retries (mergeOptions options))%nat
      /\ S n ∈ invocations (events (session input options clock))).
Proof.
  intros Hin Hf Ho.
  destruct (session_reaches _ _ _ _ Hin)
    as (fuel' & st' & pre & -> & -> & -> & Ha & Hos & Hn & Hpi & _ & Hts & He
        & _ & Hfu).
  pose proof Hf as Hf'. apply failureAt_Some in Hf' as [Hi Hc].
  assert (HS : failuresUpTo input n = failuresUpTo input (n - 1) ++ [err]).
  { replace n with (S (n - 1)) at 1 by lia. apply failuresUpTo_S.
    by replace (S (n - 1)) with n by lia. }
  assert (Hseq : seq 1 n = seq 1 (n - 1) ++ [n]).
  { replace n with (S (n - 1)) at 1 by lia. rewrite seq_S. do 2 f_equal. lia. }
  subst n.
  destruct (budgetExpired (clock (attempts st')) (clock 0%nat)
              (last (scheduleOf options))) eqn:Hb.
  { left. split; [done|].
    erewrite run_settle by (apply fn_budget_expired; [done..|by rewrite Hos]).
    cbn [settled final trace errors set_errors]. rewrite He, <- HS.
    split; [done|]. split; [done|]. split; [by intros st [= <-]|].
    rewrite invocations_app, Hpi, Hseq. done. }
  right. destruct (timeouts st') as [|t rest] eqn:Ht.
  - left. split; [done|].
    assert (Hr : (opts_retries (mergeOptions options) < attempts st')%nat).
    { symmetry in Hts. apply drop_nil_inv in Hts.
      rewrite scheduleOf_length in Hts. lia. }
    split; [done|].
    erewrite run_settle by (apply fn_schedule_empty; [done..|by rewrite Hos|done]).
    cbn [settled final trace errors set_errors]. rewrite He, <- HS.
    split; [done|]. split; [done|]. split; [by intros st [= <-]|].
    rewrite invocations_app, Hpi, Hseq. done.
  - right. split; [done|].
    assert (Hr : (attempts st' <= opts_retries (mergeOptions options))%nat).
    { assert (Hl : length (drop (attempts st' - 1) (scheduleOf options)) = S (length rest)).
      { by rewrite <- Hts. }
      rewrite length_drop, scheduleOf_length in Hl. lia. }
    split; [done|].
    erewrite run_scheduled by (apply fn_retrying; [done..|by rewrite Hos|done]).
    cbv zeta. cbn [trace].
    destruct fuel' as [|fuel']; [simpl in Hfu; lia|].
    match goal with
    | |- context [Executor.run _ _ _ _ (S fuel') ?s] =>
        destruct (run_first_event input (mergeOptions options) clock
                    (last (scheduleOf options)) fuel' s) as [tr ->]
    end.
    cbn [attempts set_attempts set_timeoutId set_timeouts set_errors].
    rewrite !invocations_app. apply elem_of_app. right. apply elem_of_app. right.
    simpl. apply list_elem_of_here.
Qed.



(** X9.  Whatever a session does, its accumulator holds nothing but the
    retryable failures of the first [k] attempts, in order, for some [k] not
    above the number of attempts made, with at most the timeout marker in
    front: values that are not errors, fatal failures and failures of the
    observer are never recorded. *)
Theorem accumulator_content (input : RetryInput) (options : RetryOptions)
    (clock : Clock) (st : State) :
  vars (session input options clock) = Some st ->
  exists k,
    (k <= length (invocations (events (session input options clock))))%nat
    /\ (errors st = failuresUpTo input k
        \/ errors st = timeoutMarker :: failuresUpTo input k).
Proof.
  destruct (Num_le_dec (opts_minTimeout (mergeOptions options))
              (opts_maxTimeout (mergeOptions options))) as [Hle|Hgt].
  - rewrite (session_valid _ _ _ Hle). cbv zeta. cbn [events vars].
    intros [= <-].
    destruct (run_errors input (mergeOptions options) clock
                (last (scheduleOf options)) (S (length (scheduleOf options)))
                (firstState options clock)) as (k & Hk & H).
    exists k. split; [done|]. exact H.
  - rewrite (session_invalid _ _ _ Hgt). by cbn [vars].
Qed.

Lemma accumulator_content_witness :
  exists k,
    (k <= 4)%nat
    /\ ([timeoutMarker; fixtureError; fixtureError; fixtureError; fixtureError]
        = failuresUpTo (alwaysFails fixtureError) k
        \/ [timeoutMarker; fixtureError; fixtureError; fixtureError; fixtureError]
           = timeoutMarker :: failuresUpTo (alwaysFails fixtureError) k).
Proof.
  apply (accumulator_content (alwaysFails fixtureError) (withRetries 3) testClock
           {| timeouts := [];
              errors := [timeoutMarker; fixtureError; fixtureError; fixtureError;
                         fixtureError];
              operationStart := 0; attempts := 4; timeoutId := Some 3%nat |}).
  vm_compute. reflexivity.
Defined.






(** X17.  When the retries end on a retryable failure whose message the
    scan counts (the budget is used up or the schedule is exhausted), the
    promise is rejected with the retryable failure of one of the attempts
    made: never with [null], and never with the marker. *)
Theorem exhaustion_surfaces_a_failure (input : RetryInput)
    (options : RetryOptions) (clock : Clock) (n : nat) (err : JsError) :
  n ∈ invocations (events (session input options clock)) ->
  failureAt input n = Some err ->
  opts_onFailedAttempt (mergeOptions options)
    (attemptErrorFor (opts_retries (mergeOptions options)) err n) = None ->
  ~ S n ∈ invocations (events (session input options clock)) ->
  ~ inherited (message err) ->
  exists k e,
    (1 <= k <= n)%nat
    /\ failureAt input k = Some e
    /\ state (session input options clock) = Some (Rejected (JError e)).
Proof.
  intros Hin Hf Ho Hlast Hn.
  assert (Hn1 : (1 <= n)%nat).
  { destruct (session_reaches _ _ _ _ Hin) as (? & ? & ? & _ & _ & _ & _ & _ & H & _).
    exact H. }
  assert (HS : failuresUpTo input n = failuresUpTo input (n - 1) ++ [err]).
  { replace n with (S (n - 1)) at 1 by lia. apply failuresUpTo_S.
    by replace (S (n - 1)) with n by lia. }
  assert (Hmem : forall i e, failuresUpTo input n !! i = Some e ->
            exists k e', (1 <= k <= n)%nat /\ failureAt input k = Some e' /\ e' = e).
  { intros i e Hi. assert (He : e ∈ failuresUpTo input n).
    { apply list_elem_of_lookup. by exists i. }
    apply failuresUpTo_member in He as (k & Hk & He). by exists k, e. }
  destruct (session_decision _ _ _ _ _ Hin Hf Ho)
    as [(_ & Hs & _)|[(_ & _ & Hs & _)|(_ & _ & HSn)]]; [| |done].
  - rewrite HS in Hs.
    destruct (mainError_behind_marker (failuresUpTo input (n - 1)) err Hn)
      as (i & e & Hm & Hi).
    rewrite Hm in Hs. rewrite <- HS in Hi.
    destruct (Hmem _ _ Hi) as (k & e' & Hk & He & ->). by exists k, e.
  - pose proof (mainError_scanned (failuresUpTo input n)) as Hm.
    destruct (mainError (failuresUpTo input n)) as [e|].
    + destruct Hm as (i & Hi & _).
      destruct (Hmem _ _ Hi) as (k & e' & Hk & He & ->). by exists k, e.
    + rewrite HS in Hm. apply Forall_app in Hm as [_ Hm].
      apply Forall_inv in Hm. done.
Qed.

Lemma exhaustion_surfaces_a_failure_witness :
  exists k e,
    (1 <= k <= 4)%nat
    /\ failureAt (alwaysFails fixtureError) k = Some e
    /\ state (session (alwaysFails fixtureError) (withRetries 3) testClock)
       = Some (Rejected (JError e)).
Proof.
  apply (exhaustion_surfaces_a_failure (alwaysFails fixtureError) (withRetries 3)
           testClock 4 fixtureError).
  - vm_compute. do 3 apply list_elem_of_further. apply list_elem_of_here.
  - reflexivity.
  - reflexivity.
  - intros H. vm_compute in H. change (5%nat ∈ seq 1 4) in H.
    apply elem_of_seq in H. lia.
  - exact fixture_counted.
Defined.

(** ** More on the representative failure *)

Lemma tally_take_le m (l : list JsError) j : (tally m (take j l) <= tally m l)%nat.
Proof. rewrite <- (take_drop j l) at 2. rewrite tally_app. lia. Qed.

Lemma tally_take_S m (l : list JsError) j x :
  l !! j = Some x ->
  tally m (take (S j) l)
  = (tally m (take j l) + if decide (message x = m) then 1 else 0)%nat.
Proof. intros H. by rewrite (take_S_r l j x H), tally_app, tally_one. Qed.

(** No counted message has, in any prefix, more occurrences than the running
    count of the representative. *)
Lemma tally_take_bound (l : list JsError) i e m j :
  representative l i e -> ~ inherited m ->
  (tally m (take j l) <= runningCount l i)%nat.
Proof.
  intros Hrep Hm. induction j as [|j IH].
  { rewrite take_0. unfold tally. simpl. lia. }
  destruct (l !! j) as [x|] eqn:Hj.
  - rewrite (tally_take_S _ _ _ _ Hj).
    destruct (decide (message x = m)) as [Hx|Hx]; [|lia].
    assert (Hrc : runningCount l j = (tally m (take j l) + 1)%nat).
    { unfold runningCount. rewrite Hj, (tally_take_S _ _ _ _ Hj), Hx.
      by rewrite decide_True. }
    rewrite <- Hrc. eapply representative_highest; [done..|]. by rewrite Hx.
  - apply lookup_ge_None in Hj. rewrite take_ge by lia.
    rewrite take_ge in IH by lia. done.
Qed.

(** X12.  The failure [mainError] returns is one of the accumulator; its
    message is one the scan counts and no counted message occurs more often
    in the accumulator; and it is the last failure with that message. *)
Theorem mainError_most_frequent (l : list JsError) (e : JsError) :
  mainError l = Some e ->
  e ∈ l
  /\ ~ inherited (message e)
  /\ (forall m, ~ inherited m -> (tally m l <= tally (message e) l)%nat)
  /\ exists i,
       l !! i = Some e
       /\ forall k e', (i < k)%nat -> l !! k = Some e' -> message e' <> message e.
Proof.
  intros Hm. pose proof (mainError_scanned l) as H. rewrite Hm in H.
  destruct H as (i & Hrep). pose proof Hrep as (Hi & Hn & Hb & Ha).
  split; [apply list_elem_of_lookup; by exists i|]. split; [done|]. split.
  - intros m Hc.
    pose proof (tally_take_bound l i e m (length l) Hrep Hc) as Hle.
    rewrite take_ge in Hle by lia.
    pose proof (runningCount_le_tally _ _ _ Hi). lia.
  - exists i. split; [done|]. intros k e' Hk He' Heq.
    assert (Hcount : ~ inherited (message e')) by by rewrite Heq.
    specialize (Ha _ _ Hk He' Hcount).
    unfold runningCount in Ha. rewrite He', Hi in Ha.
    rewrite (tally_take_S _ _ _ _ He'), decide_True in Ha by done.
    rewrite Heq in Ha.
    assert (Hpre : take (S i) l = take (S i) (take k l)).
    { rewrite take_take. f_equal. lia. }
    rewrite Hpre in Ha.
    pose proof (tally_take_le (message e) (take k l) (S i)). lia.
Qed.

Lemma mainError_most_frequent_witness :
  newError (ByCaller 3) "a"
  ∈ [newError (ByCaller 0) "a"; newError (ByCaller 1) "b";
     newError (ByCaller 2) "b"; newError (ByCaller 3) "a"]
  /\ ~ inherited (message (newError (ByCaller 3) "a")).
Proof.
  destruct (mainError_most_frequent
              [newError (ByCaller 0) "a"; newError (ByCaller 1) "b";
               newError (ByCaller 2) "b"; newError (ByCaller 3) "a"]
              (newError (ByCaller 3) "a")) as (H1 & H2 & _).
  - vm_compute. reflexivity.
  - split; [exact H1|exact H2].
Defined.

(** ** More on the schedule *)

Lemma Math_round_comp (x y : Q) : x == y -> Math_round x = Math_round y.
Proof.
  intros H. unfold Math_round. f_equal. apply Qfloor_comp. by rewrite H.
Qed.

Lemma Math_round_integer (z : Z) : Math_round (inject_Z z) = inject_Z z.
Proof.
  unfold Math_round. f_equal. apply Z.le_antisymm.
  - pose proof (Qfloor_le (inject_Z z + (1 # 2))) as H.
    destruct (Z_le_gt_dec (Qfloor (inject_Z z + (1 # 2))) z) as [Hle|Hgt]; [done|].
    assert (H1 : inject_Z (z + 1) <= inject_Z (Qfloor (inject_Z z + (1 # 2)))).
    { rewrite <- Zle_Qle. lia. }
    rewrite inject_Z_plus in H1. change (inject_Z 1) with 1 in H1. lra.
  - rewrite <- (Qfloor_Z z) at 1. apply Qfloor_resp_le.
    rewrite <- (Qplus_0_r (inject_Z z)) at 1. by apply Qplus_le_r.
Qed.

Lemma Math_pow_ge_1 (factor : Q) (i : nat) : 1 <= factor -> 1 <= Math_pow factor i.
Proof. intros H. unfold Math_pow. apply Qpower_1_le; [done|lia]. Qed.

(** X13.  Asking for more retries extends the schedule and leaves the
    delays of the earlier retries as they were. *)
Theorem generateTimeouts_extends (retries more : nat) (min : Q) (max : JsNumber)
    (factor : Q) :
  take retries (generateTimeouts (retries + more) min max factor)
  = generateTimeouts retries min max factor.
Proof.
  rewrite !generateTimeouts_map, <- fmap_take, take_seq.
  by rewrite Nat.min_l by lia.
Qed.

(** X14.  A [min] of at most 1 is replaced by 1: the schedule is the one
    generated for [min = 1]. *)
Theorem generateTimeouts_clamps_min (retries : nat) (min : Q) (max : JsNumber)
    (factor : Q) :
  min <= 1 ->
  generateTimeouts retries min max factor = generateTimeouts retries 1 max factor.
Proof.
  intros Hmin. rewrite !generateTimeouts_map. apply map_ext. intros i.
  unfold loop_delay. f_equal. apply Math_round_comp.
  unfold Math_max. rewrite (Q.max_r min 1) by done. by rewrite (Q.max_l 1 1).
Qed.

Lemma generateTimeouts_clamps_min_witness :
  generateTimeouts 3 (-(5)) Infinity 2 = generateTimeouts 3 1 Infinity 2.
Proof. apply (generateTimeouts_clamps_min 3 (-(5)) Infinity 2). done. Defined.

(** X15.  For a whole-number [min] of at least 1, a [factor] of at least 1
    and [min <= max], every delay lies between [min] and [max], and the
    first delay is [min] itself. *)
Theorem generateTimeouts_between_bounds (retries : nat) (z : Z) (max : JsNumber)
    (factor : Q) :
  (1 <= z)%Z ->
  1 <= factor ->
  Num.le (inject_Z z) max ->
  (forall t, t ∈ generateTimeouts retries (inject_Z z) max factor ->
     inject_Z z <= t /\ Num.le t max)
  /\ (forall t, generateTimeouts retries (inject_Z z) max factor !! 0%nat = Some t ->
        t == inject_Z z).
Proof.
  intros Hz Hf Hmax.
  assert (Hz1 : 1 <= inject_Z z).
  { change 1 with (inject_Z 1). by rewrite <- Zle_Qle. }
  assert (Heff : Math_max (inject_Z z) 1 == inject_Z z).
  { unfold Math_max. by apply Q.max_l. }
  split.
  - intros t Ht. apply list_elem_of_lookup in Ht as [i Ht].
    apply generateTimeouts_lookup_inv in Ht as [_ ->]. split.
    + unfold loop_delay.
      assert (Hr : inject_Z z
                   <= Math_round (Math_max (inject_Z z) 1 * Math_pow factor i)).
      { rewrite <- (Math_round_integer z) at 1. apply Math_round_mono.
        rewrite Heff. rewrite <- (Qmult_1_r (inject_Z z)) at 1.
        apply Qmult_le_l; [|by apply Math_pow_ge_1].
        eapply Qlt_le_trans; [|exact Hz1]. done. }
      destruct max as [m|]; simpl; [|done]. by apply Q.min_glb.
    + apply Math_min_capped.
  - intros t Ht. apply generateTimeouts_lookup_inv in Ht as [_ ->].
    unfold loop_delay.
    assert (Hr : Math_round (Math_max (inject_Z z) 1 * Math_pow factor 0)
                 = inject_Z z).
    { rewrite <- (Math_round_integer z) at 2. apply Math_round_comp.
      rewrite Heff. unfold Math_pow. simpl. apply Qmult_1_r. }
    rewrite Hr. destruct max as [m|]; simpl; [|done]. by apply Q.min_l.
Qed.

Lemma generateTimeouts_between_bounds_witness :
  inject_Z 1000 <= 2000 /\ Num.le 2000 (Fin 3000).
Proof.
  destruct (generateTimeouts_between_bounds 3 1000 (Fin 3000) 2) as [H _];
    [lia|done|done|].
  apply H. vm_compute. apply list_elem_of_further, list_elem_of_here.
Defined.



(** ** Between two attempts *)


